(** * halfpipe: precision-adaptive conversion of t and F statistics to z-scores

    A shallow embedding of [halfpipe/interface/fslnumpy/miscmaths.py]:
    the decorator [adaptive_precision] (its [wrapper]) and the two decorated
    converters [t2z_convert] and [f2z_convert].

    Python floats are IEEE binary64 values, modelled by [spec_float] at
    precision 53 and maximal exponent 1024.  The arbitrary-precision values of
    mpmath and its special functions are not part of the repository: they are
    the fields of the class [Provider].  A call of the wrapped function under
    [with workdps(dps)] is a function of [dps] and of the arguments. *)

From Stdlib Require Import ZArith List Bool Lia.
From Stdlib Require Import Floats.SpecFloat.
From Stdlib Require Strings.Ascii Strings.String.
Import ListNotations.

Local Open Scope Z_scope.

(** ** Python floats and the functions of [math] the wrapper calls *)

Module Float64.

Definition float : Type := spec_float.

Definition prec : Z := 53.
Definition emax : Z := 1024.

(** [math.nan], [math.inf] and the literals the file needs. *)
Definition nan : float := S754_nan.
Definition inf : float := S754_infinity false.
Definition neg_inf : float := S754_infinity true.
Definition zero : float := S754_zero false.

(** An integer as a float, as in [float(n)]. *)
Definition of_Z (n : Z) : float := binary_normalize prec emax n 0 false.

Definition isnan (x : float) : bool :=
  match x with S754_nan => true | _ => false end.

Definition isinf (x : float) : bool :=
  match x with S754_infinity _ => true | _ => false end.

Definition isfinite (x : float) : bool :=
  match x with
  | S754_zero _ | S754_finite _ _ _ => true
  | S754_infinity _ | S754_nan => false
  end.

(** Python's [<] on floats. *)
Definition ltb (x y : float) : bool := SFltb x y.

(** The default tolerances of [math.isclose]: [rel_tol=1e-09], the double
    0x1.12e0be826d695p-30, and [abs_tol=0.0]. *)
Definition rel_tol : float := S754_finite false 4835703278458517 (-82).
Definition abs_tol : float := zero.

(** [math.isclose(a, b)] with the default tolerances:
    [a == b], else false when either is infinite, else
    [diff <= fabs(rel_tol * b) or diff <= fabs(rel_tol * a) or diff <= abs_tol]
    with [diff = fabs(b - a)]. *)
Definition isclose (a b : float) : bool :=
  if SFeqb a b then true
  else if isinf a || isinf b then false
  else
    let diff := SFabs (SFsub prec emax b a) in
    SFleb diff (SFabs (SFmul prec emax rel_tol b))
    || SFleb diff (SFabs (SFmul prec emax rel_tol a))
    || SFleb diff abs_tol.

End Float64.

Import Float64.

(** ** Exceptions, results and observable events *)

(** The exceptions the model tells apart.  [ValueError] and
    [ZeroDivisionError] are the two the wrapper catches; [IndexError] is
    what [args[0]] raises on an empty argument tuple; [UnboundLocalError] is
    what reading [z] after a loop that never ran would raise; [TypeError] is
    a call with the wrong number of arguments; [OtherError] is anything
    else the wrapped function may raise. *)
Inductive exn : Type :=
| ValueError
| ZeroDivisionError
| IndexError
| UnboundLocalError
| TypeError
| OtherError.

(** The result of calling a Python function that may raise. *)
Inductive outcome (A : Type) : Type :=
| Value (v : A)
| Throw (e : exn).
Arguments Value {A} v.
Arguments Throw {A} e.

(** What a caller can observe besides the result: an evaluation of the
    wrapped function under [workdps(dps)], and a warning to the logger,
    which carries the arguments it formats. *)
Inductive event : Type :=
| Eval (dps : Z)
| Warning (args : list float).

(** The [return] statements of the wrapper, in source order. *)
Inductive return_site : Type :=
| AtNaNCheck        (* return math.nan  # skip computation *)
| AtInfCheck        (* return args[0] *)
| AtZeroDivision    (* except ZeroDivisionError: return math.nan *)
| AtConverged       (* return float(z), inside the loop *)
| AtExhausted.      (* return float(z), after the loop *)

(** How a call of the wrapper ends. [OutOfFuel] is the model's own: the
    loop below is given a bound on its iterations. *)
Inductive completion : Type :=
| Return (site : return_site) (v : float)
| Raise (e : exn)
| OutOfFuel.

Definition run : Type := (list event * completion)%type.

(** The precisions at which a run evaluated the wrapped function, in order. *)
Fixpoint evals (tr : list event) : list Z :=
  match tr with
  | [] => []
  | Eval d :: tr' => d :: evals tr'
  | Warning _ :: tr' => evals tr'
  end.

(** The warnings of a run, in order. *)
Fixpoint warnings (tr : list event) : list (list float) :=
  match tr with
  | [] => []
  | Eval _ :: tr' => warnings tr'
  | Warning a :: tr' => a :: warnings tr'
  end.

(** [n] precisions from [d] on, each the double of the one before. *)
Fixpoint doublings (n : nat) (d : Z) : list Z :=
  match n with
  | O => []
  | S n' => d :: doublings n' (2 * d)
  end.

(** ** The special-function provider (mpmath) *)

(** [mpf] is mpmath's number type and [to_float] is [float(.)] on it.
    [mpf_zero] is the value of [mpf("0")], which narrows to [0.0].
    [t_expression] and [f_expression] are the closed forms of the two
    converters, evaluated at the working precision [dps]; they may raise. *)
Class Provider : Type := {
  mpf : Type;
  to_float : mpf -> float;
  mpf_zero : mpf;
  to_float_mpf_zero : to_float mpf_zero = zero;
  t_expression : Z -> float -> float -> outcome mpf;
  f_expression : Z -> float -> float -> float -> outcome mpf
}.

(** ** [adaptive_precision] *)

Section AdaptivePrecision.

Context {P : Provider}.

(** The wrapped function [func], called as [func( *args)] while the working
    precision is [dps]. *)
Variable func : Z -> list float -> outcome mpf.

(** The local variables of the wrapper that live across iterations;
    [None] is "not assigned yet" for [z] and Python's [None] for [zprev]. *)
Record locals : Type := {
  dps : Z;
  zprev : option float;
  z : option float
}.

(** The [try] statement of one iteration: [z = math.inf], then
    [z = float(func( *args))]; a [ValueError] leaves [z] at infinity, a
    [ZeroDivisionError] returns NaN, any other exception propagates. *)
Inductive attempt : Type :=
| Computed (z : float)
| Aborted (c : completion).

Definition evaluate (d : Z) (args : list float) : attempt :=
  match func d args with
  | Value v => Computed (to_float v)
  | Throw ValueError => Computed inf
  | Throw ZeroDivisionError => Aborted (Return AtZeroDivision nan)
  | Throw e => Aborted (Raise e)
  end.

(** The convergence test:
    [zprev is not None], [math.isfinite(z)], [math.isclose(z, zprev)]. *)
Definition converged (zp : option float) (zc : float) : bool :=
  match zp with
  | None => false
  | Some p => isfinite zc && isclose zc p
  end.

Inductive step : Type :=
| Continue (l : locals)
| Stop (c : completion).

(** One iteration of the [while] loop. *)
Definition body (args : list float) (l : locals) : step :=
  match evaluate (dps l) args with
  | Aborted c => Stop c
  | Computed zc =>
      if converged (zprev l) zc then Stop (Return AtConverged zc)
      else Continue {| dps := 2 * dps l; zprev := Some zc; z := Some zc |}
  end.

(** The statements after the loop: the warning unless [z] is NaN, and
    [return float(z)]. *)
Definition after_loop (args : list float) (l : locals) : run :=
  match z l with
  | None => ([], Raise UnboundLocalError)
  | Some zl =>
      if negb (isnan zl) then ([Warning args], Return AtExhausted zl)
      else ([], Return AtExhausted zl)
  end.

(** [while dps <= 2 ** 16: ...], with a bound on the iterations. *)
Fixpoint loop (fuel : nat) (args : list float) (l : locals) : run :=
  if dps l <=? 2 ^ 16 then
    match fuel with
    | O => ([], OutOfFuel)
    | S fuel' =>
        match body args l with
        | Stop c => ([Eval (dps l)], c)
        | Continue l' =>
            let (tr, c) := loop fuel' args l' in (Eval (dps l) :: tr, c)
        end
    end
  else after_loop args l.

(** [dps] doubles from [2 ** 4] and the loop stops above [2 ** 16]: one
    iteration for each exponent up to 16 is more than the loop can use
    (see [loop_fuel_enough]). *)
Definition loop_fuel : nat := 17.

Definition initial : locals := {| dps := 2 ^ 4; zprev := None; z := None |}.

Definition wrapper (args : list float) : run :=
  if existsb isnan args then ([], Return AtNaNCheck nan)
  else
    match args with
    | [] => ([], Raise IndexError)
    | a0 :: _ =>
        if isinf a0 then ([], Return AtInfCheck a0)
        else loop loop_fuel args initial
    end.

End AdaptivePrecision.

(** ** The decorated converters *)

Section Converters.

Context {P : Provider}.

(** The body of [t2z_convert(t, nu)]. *)
Definition t2z_body (d : Z) (args : list float) : outcome mpf :=
  match args with
  | [t; nu] => t_expression d t nu
  | _ => Throw TypeError
  end.

(** The body of [f2z_convert(x, d1, d2)]: the guard
    [x < mpf("0") or d1 < mpf("0") or d2 < mpf("0")] returns [mpf("0")].
    The arguments are doubles, which [mpf] holds exactly at every
    precision the wrapper uses, so the guard compares the doubles. *)
Definition f2z_body (d : Z) (args : list float) : outcome mpf :=
  match args with
  | [x; d1; d2] =>
      if ltb x zero || ltb d1 zero || ltb d2 zero then Value mpf_zero
      else f_expression d x d1 d2
  | _ => Throw TypeError
  end.

Definition t2z_convert (t nu : float) : run := wrapper t2z_body [t; nu].

Definition f2z_convert (x d1 d2 : float) : run := wrapper f2z_body [x; d1; d2].

End Converters.

(** ** Derived notions used by the statements *)

(** The events of the statements after the loop for a last value [v]: the
    warning, unless [v] is NaN. *)
Definition final_warning (args : list float) (v : float) : list event :=
  if isnan v then [] else [Warning args].

(** The precision of iteration [i] of the loop, counted from 0:
    [2 ** 4] doubled [i] times. *)
Definition schedule (i : nat) : Z := 2 ^ 4 * 2 ^ Z.of_nat i.

(** The value the wrapper holds in [zprev] when iteration [i] starts, in a
    run whose iterations compute [zs 0], [zs 1], ...: Python's [None] in the
    first iteration, the value of the iteration before in the others. *)
Definition previous (zs : nat -> float) (i : nat) : option float :=
  match i with
  | O => None
  | S j => Some (zs j)
  end.

(** ** Concrete providers and wrapped functions used by the examples *)

Module Examples.

(** A provider whose high-precision numbers are the doubles themselves;
    its two expressions return the statistic unchanged. *)
Definition double_provider : Provider := {|
  mpf := float;
  to_float := fun v => v;
  mpf_zero := zero;
  to_float_mpf_zero := eq_refl;
  t_expression := fun _ t _ => Value t;
  f_expression := fun _ x _ _ => Value x
|}.

(** The arguments of a two-argument call, [(1.0, 2.0)]. *)
Definition two_args : list float := [of_Z 1; of_Z 2].

(** A wrapped function that is outside its domain at every precision. *)
Definition domain_error_always (d : Z) (args : list float) : outcome float :=
  Throw ValueError.

(** A wrapped function whose value is NaN at every precision. *)
Definition nan_always (d : Z) (args : list float) : outcome float :=
  Value nan.

(** A wrapped function with the same finite value at every precision. *)
Definition one_always (d : Z) (args : list float) : outcome float :=
  Value (of_Z 1).

(** A wrapped function whose value keeps changing with the precision (it
    returns the precision itself) and that divides by zero at [d0]. *)
Definition singular_at (d0 d : Z) (args : list float) : outcome float :=
  if d =? d0 then Throw ZeroDivisionError else Value (of_Z d).

(** The same, with a domain error at [d0]. *)
Definition domain_error_at (d0 d : Z) (args : list float) : outcome float :=
  if d =? d0 then Throw ValueError else Value (of_Z d).

(** A wrapped function that raises an exception the wrapper does not
    catch at [d0], and returns the precision itself elsewhere. *)
Definition failing_at (d0 d : Z) (args : list float) : outcome float :=
  if d =? d0 then Throw OtherError else Value (of_Z d).

End Examples.

(** * The result sink: [halfpipe/interface/resultdict/datasink.py]

    The pure helpers of the sink: [_format_metadata_key],
    [_format_metadata_value] and [_make_path].  Python strings are
    [String.string]; a Python [dict] with string keys is the list of its
    items in insertion order. *)

Module Datasink.

Import Ascii String.
Local Open Scope string_scope.

(** ** Python values and dicts *)

(** The values a metadata dict holds: scalars, lists, and dicts with string
    keys. *)
#[warnings="-register-all"]
Inductive pyvalue : Type :=
| PyNone
| PyBool (b : bool)
| PyInt (n : Z)
| PyFloat (x : float)
| PyStr (s : string)
| PyList (xs : list pyvalue)
| PyDict (items : list (string * pyvalue)).

(** [d.get(k)]: the value stored under [k], if any. *)
Fixpoint dict_get {A : Type} (d : list (string * A)) (k : string) : option A :=
  match d with
  | [] => None
  | (k', v) :: d' => if k' =? k then Some v else dict_get d' k
  end.

(** [d[k] = v]: a key that is present keeps its place and takes the new
    value; a new key goes last. *)
Fixpoint dict_set {A : Type} (d : list (string * A)) (k : string) (v : A)
  : list (string * A) :=
  match d with
  | [] => [(k, v)]
  | (k', v') :: d' =>
      if k' =? k then (k', v) :: d' else (k', v') :: dict_set d' k v
  end.

(** The dict a comprehension [{k: v for ...}] builds from the pairs it
    produces, in order. *)
Definition dict_of_items {A : Type} (items : list (string * A))
  : list (string * A) :=
  fold_left (fun d kv => dict_set d (fst kv) (snd kv)) items [].

(** ** [_format_metadata_key] and [_format_metadata_value] *)

Section Metadata.

(** [inflection.camelize], which is not part of the repository. *)
Variable camelize : string -> string.

Definition _format_metadata_key (key : string) : string :=
  if key =? "ica_aroma" then "ICAAROMA"
  else if key =? "fwhm" then "FWHM"
  else if key =? "hp_width" then "HighPassWidth"
  else if key =? "lp_width" then "LowPassWidth"
  else camelize key.

(** The pairs of the comprehension of [_format_metadata_value], given the
    function applied to the values. *)
Definition format_items (f : pyvalue -> pyvalue) (items : list (string * pyvalue))
  : list (string * pyvalue) :=
  List.map (fun '(k, v) => (_format_metadata_key k, f v)) items.

Fixpoint _format_metadata_value (obj : pyvalue) : pyvalue :=
  match obj with
  | PyDict items =>
      PyDict (dict_of_items
                (List.map (fun '(k, v) =>
                             (_format_metadata_key k, _format_metadata_value v))
                          items))
  | _ => obj
  end.

End Metadata.

(** ** [_make_path] *)



Section MakePath.

(** [splitext] and [formatlikebids] of [halfpipe.utils] and [entities] of
    [halfpipe.model], which are not under [src/]. *)
Variable splitext : string -> string * string.
Variable formatlikebids : string -> string.
Variable entities : list string.





End MakePath.

(** ** Stand-ins used by the examples *)

(** An ASCII letter in upper case. *)
Definition upper (c : ascii) : ascii :=
  let n := nat_of_ascii c in
  if (Nat.leb 97 n && Nat.leb n 122)%bool then ascii_of_nat (n - 32) else c.

(** [camelize] on ASCII snake case: the first character, and each
    character after an underscore, in upper case, the underscore dropped. *)
Fixpoint camelize_rest (s : string) : string :=
  match s with
  | EmptyString => EmptyString
  | String c s' =>
      if Ascii.eqb c "_"%char then
        match s' with
        | EmptyString => String c EmptyString
        | String c' s'' => String (upper c') (camelize_rest s'')
        end
      else String c (camelize_rest s')
  end.

Definition camelize_ascii (s : string) : string :=
  match s with
  | EmptyString => EmptyString
  | String c s' => String (upper c) (camelize_rest s')
  end.

(** A nested metadata dict. *)
Definition example_metadata : list (string * pyvalue) :=
  [("fwhm", PyFloat (of_Z 6));
   ("ica_aroma", PyBool true);
   ("setting", PyDict [("hp_width", PyFloat (of_Z 125));
                       ("smoothing_kernel", PyStr "gaussian")])].




End Datasink.

(** * Properties *)

(** ** Facts about the float predicates *)

Lemma isclose_refl_finite (x : float) : isfinite x = true -> isclose x x = true.
Proof.
  destruct x as [s|s| |s m e]; simpl; intros H; try discriminate H.
  - reflexivity.
  - unfold isclose, SFeqb, SFcompare.
    destruct s; rewrite Z.compare_refl, Pos.compare_cont_refl; reflexivity.
Qed.

(** [math.isclose] never accepts a finite value against an infinite or NaN
    one: a finite current value that is close to the previous one shows
    that the previous one was finite. *)
Lemma isclose_finite_prev (zc zp : float) :
  isfinite zc = true -> isclose zc zp = true -> isfinite zp = true.
Proof.
  intros Hc Hclose.
  destruct zp as [sp|sp| |sp mp ep]; try reflexivity.
  - destruct zc as [sc|sc| |sc mc ec]; try discriminate Hc;
      destruct sc, sp; discriminate Hclose.
  - destruct zc as [sc|sc| |sc mc ec]; try discriminate Hc;
      discriminate Hclose.
Qed.

(** ** One iteration *)

Section Iteration.

Context {P : Provider}.
Variable func : Z -> list float -> outcome mpf.

Lemma evaluate_computed (d : Z) (args : list float) (zc : float) :
  evaluate func d args = Computed zc ->
  (exists v, func d args = Value v /\ zc = to_float v)
  \/ (func d args = Throw ValueError /\ zc = inf).
Proof.
  unfold evaluate. destruct (func d args) as [v|e].
  - intros H. injection H as <-. left. exists v. split; reflexivity.
  - destruct e; intros H; try discriminate H.
    injection H as <-. right. split; reflexivity.
Qed.

Lemma evaluate_aborted (d : Z) (args : list float) (c : completion) :
  evaluate func d args = Aborted c ->
  (func d args = Throw ZeroDivisionError /\ c = Return AtZeroDivision nan)
  \/ (exists e, func d args = Throw e /\ c = Raise e).
Proof.
  unfold evaluate. destruct (func d args) as [v|e].
  - discriminate.
  - destruct e; intros H; try discriminate H; injection H as <-;
      solve [ left; split; reflexivity
            | right; eexists; split; reflexivity ].
Qed.

Lemma evaluate_domain_error (d : Z) (args : list float) :
  func d args = Throw ValueError -> evaluate func d args = Computed inf.
Proof. unfold evaluate. intros ->. reflexivity. Qed.

Lemma evaluate_zero_division (d : Z) (args : list float) :
  func d args = Throw ZeroDivisionError ->
  evaluate func d args = Aborted (Return AtZeroDivision nan).
Proof. unfold evaluate. intros ->. reflexivity. Qed.

Lemma body_continue (args : list float) (l l' : locals) :
  body func args l = Continue l' ->
  exists zc,
    evaluate func (dps l) args = Computed zc
    /\ converged (zprev l) zc = false
    /\ l' = {| dps := 2 * dps l; zprev := Some zc; z := Some zc |}.
Proof.
  unfold body. destruct (evaluate func (dps l) args) as [zc|c].
  - destruct (converged (zprev l) zc) eqn:Hconv; intros H.
    + discriminate H.
    + injection H as <-. exists zc. repeat split. exact Hconv.
  - discriminate.
Qed.

Lemma body_stop (args : list float) (l : locals) (c : completion) :
  body func args l = Stop c ->
  evaluate func (dps l) args = Aborted c
  \/ (exists zc,
        evaluate func (dps l) args = Computed zc
        /\ converged (zprev l) zc = true
        /\ c = Return AtConverged zc).
Proof.
  unfold body. destruct (evaluate func (dps l) args) as [zc|c'].
  - destruct (converged (zprev l) zc) eqn:Hconv; intros H.
    + injection H as <-. right. exists zc. repeat split. exact Hconv.
    + discriminate H.
  - intros H. injection H as <-. left. reflexivity.
Qed.

(** An iteration never leaves through the [return] after the loop, and it
    never runs out of fuel. *)
Lemma body_stop_site (args : list float) (l : locals) (c : completion) :
  body func args l = Stop c ->
  (exists v, c = Return AtZeroDivision v)
  \/ (exists v, c = Return AtConverged v)
  \/ (exists e, c = Raise e).
Proof.
  intros H. apply body_stop in H. destruct H as [H|(zc & _ & _ & ->)].
  - apply evaluate_aborted in H. destruct H as [[_ ->]|(e & _ & ->)].
    + left. eexists. reflexivity.
    + right. right. eexists. reflexivity.
  - right. left. eexists. reflexivity.
Qed.

Lemma converged_spec (zp : option float) (zc : float) :
  converged zp zc = true <->
  exists p, zp = Some p /\ isfinite p = true /\ isfinite zc = true
            /\ isclose zc p = true.
Proof.
  unfold converged. split.
  - destruct zp as [p|]; [|discriminate].
    intros H. apply andb_true_iff in H. destruct H as [Hf Hc].
    exists p. repeat split; try assumption.
    apply (isclose_finite_prev zc p Hf Hc).
  - intros (p & -> & _ & Hf & Hc). rewrite Hf, Hc. reflexivity.
Qed.

End Iteration.

(** ** The loop *)

Section Loop.

Context {P : Provider}.
Variable func : Z -> list float -> outcome mpf.
Variable args : list float.

Lemma loop_unfold (fuel : nat) (l : locals) :
  loop func fuel args l =
  if dps l <=? 2 ^ 16 then
    match fuel with
    | O => ([], OutOfFuel)
    | S fuel' =>
        match body func args l with
        | Stop c => ([Eval (dps l)], c)
        | Continue l' =>
            let (tr, c) := loop func fuel' args l' in (Eval (dps l) :: tr, c)
        end
    end
  else after_loop args l.
Proof. destruct fuel; reflexivity. Qed.

Lemma after_loop_cases (l : locals) (tr : list event) (c : completion) :
  after_loop args l = (tr, c) ->
  (z l = None /\ tr = [] /\ c = Raise UnboundLocalError)
  \/ (exists v, z l = Some v /\ tr = final_warning args v /\ c = Return AtExhausted v).
Proof.
  unfold after_loop, final_warning. destruct (z l) as [v|].
  - right. exists v. destruct (isnan v); simpl in H; injection H as <- <-;
      repeat split.
  - left. injection H as <- <-. repeat split.
Qed.

Lemma after_loop_no_eval (l : locals) (tr : list event) (c : completion) :
  after_loop args l = (tr, c) -> evals tr = [].
Proof.
  intros H. apply after_loop_cases in H.
  destruct H as [(_ & -> & _)|(v & _ & -> & _)]; [reflexivity|].
  unfold final_warning. destruct (isnan v); reflexivity.
Qed.

(** The cases of a run of the loop whose guard holds. *)
Lemma loop_step (fuel : nat) (l : locals) (tr : list event) (c : completion) :
  dps l <= 2 ^ 16 ->
  loop func fuel args l = (tr, c) ->
  (fuel = O /\ tr = [] /\ c = OutOfFuel)
  \/ (body func args l = Stop c /\ tr = [Eval (dps l)])
  \/ (exists fuel' l' tr',
        fuel = S fuel' /\ body func args l = Continue l'
        /\ loop func fuel' args l' = (tr', c) /\ tr = Eval (dps l) :: tr').
Proof.
  intros Hle. rewrite loop_unfold.
  apply Z.leb_le in Hle. rewrite Hle.
  destruct fuel as [|fuel'].
  - intros H. injection H as <- <-. left. repeat split.
  - destruct (body func args l) as [l'|c'] eqn:Hbody.
    + destruct (loop func fuel' args l') as [tr' c'] eqn:Hloop.
      intros H. injection H as <- <-.
      right. right. exists fuel', l', tr'. repeat split. exact Hloop.
    + intros H. injection H as <- <-. right. left. repeat split.
Qed.

Lemma loop_done (fuel : nat) (l : locals) :
  2 ^ 16 < dps l -> loop func fuel args l = after_loop args l.
Proof.
  intros Hgt. rewrite loop_unfold.
  apply Z.leb_gt in Hgt. rewrite Hgt. reflexivity.
Qed.

(** A run that does not run out of fuel starts with the evaluation at the
    current precision. *)
Lemma loop_head (fuel : nat) (l : locals) (tr : list event) (c : completion) :
  dps l <= 2 ^ 16 ->
  loop func fuel args l = (tr, c) ->
  c <> OutOfFuel ->
  exists tr', tr = Eval (dps l) :: tr'.
Proof.
  intros Hle Hloop Hc.
  destruct (loop_step fuel l tr c Hle Hloop)
    as [(_ & _ & ->)|[(_ & ->)|(fuel' & l' & tr' & _ & _ & _ & ->)]].
  - contradiction Hc. reflexivity.
  - exists []. reflexivity.
  - exists tr'. reflexivity.
Qed.

(** [j] iterations suffice once [j] doublings take the precision past the
    bound: the loop does not run out of fuel, and it evaluates at most [j]
    times, at the current precision and its successive doubles, none above
    [2 ** 16]. *)
Lemma loop_bounded (j : nat) :
  forall (fuel : nat) (l : locals) (tr : list event) (c : completion),
    (j <= fuel)%nat ->
    0 < dps l ->
    2 ^ 16 < dps l * 2 ^ Z.of_nat j ->
    loop func fuel args l = (tr, c) ->
    c <> OutOfFuel
    /\ (length (evals tr) <= j)%nat
    /\ evals tr = doublings (length (evals tr)) (dps l)
    /\ Forall (fun d => d <= 2 ^ 16) (evals tr).
Proof.
  induction j as [|j IH]; intros fuel l tr c Hfuel Hpos Hpast Hloop.
  - rewrite loop_done in Hloop
      by (change (Z.of_nat 0) with 0 in Hpast; rewrite Z.pow_0_r in Hpast; lia).
    pose proof (after_loop_no_eval l tr c Hloop) as Hev.
    apply after_loop_cases in Hloop.
    rewrite Hev. simpl. repeat split; try constructor.
    destruct Hloop as [(_ & _ & ->)|(v & _ & _ & ->)]; discriminate.
  - destruct (Z_le_gt_dec (dps l) (2 ^ 16)) as [Hle|Hgt].
    + destruct (loop_step fuel l tr c Hle Hloop)
        as [(-> & _ & _)|[(Hbody & ->)|(fuel' & l' & tr' & -> & Hbody & Hloop' & ->)]].
      * lia.
      * simpl. repeat split; try lia.
        -- apply body_stop_site in Hbody.
           destruct Hbody as [[v ->]|[[v ->]|[e ->]]]; discriminate.
        -- constructor; [exact Hle | constructor].
      * apply body_continue in Hbody. destruct Hbody as (zc & _ & _ & ->).
        assert (Hpast' : 2 ^ 16 < (2 * dps l) * 2 ^ Z.of_nat j).
        { rewrite Nat2Z.inj_succ, Z.pow_succ_r in Hpast by lia. lia. }
        assert (Hpos' : 0 < 2 * dps l) by lia.
        destruct (IH fuel' {| dps := 2 * dps l; zprev := Some zc; z := Some zc |}
                    tr' c ltac:(lia) Hpos' Hpast' Hloop')
          as (Hc & Hlen & Hev & Hall).
        cbn [dps] in Hev. cbn [evals length doublings]. repeat split.
        -- exact Hc.
        -- lia.
        -- f_equal. exact Hev.
        -- constructor; assumption.
    + rewrite loop_done in Hloop by lia.
      pose proof (after_loop_no_eval l tr c Hloop) as Hev.
      apply after_loop_cases in Hloop.
      rewrite Hev. simpl. repeat split; try constructor; try lia.
      destruct Hloop as [(_ & _ & ->)|(v & _ & _ & ->)]; discriminate.
Qed.

(** More fuel does not change a run that had enough. *)
Lemma loop_fuel_monotone (fuel : nat) :
  forall (fuel' : nat) (l : locals) (tr : list event) (c : completion),
    (fuel <= fuel')%nat ->
    loop func fuel args l = (tr, c) ->
    c <> OutOfFuel ->
    loop func fuel' args l = (tr, c).
Proof.
  induction fuel as [|fuel IH]; intros fuel' l tr c Hle Hloop Hc.
  - rewrite loop_unfold in Hloop. rewrite loop_unfold.
    destruct (dps l <=? 2 ^ 16); [|exact Hloop].
    injection Hloop as <- <-. contradiction Hc. reflexivity.
  - destruct fuel' as [|fuel']; [lia|].
    rewrite loop_unfold in Hloop. rewrite loop_unfold.
    destruct (dps l <=? 2 ^ 16); [|exact Hloop].
    destruct (body func args l) as [l'|c']; [|exact Hloop].
    destruct (loop func fuel args l') as [tr1 c1] eqn:Hloop1.
    injection Hloop as <- <-.
    rewrite (IH fuel' l' tr1 c1 ltac:(lia) Hloop1 Hc). reflexivity.
Qed.

End Loop.

(** ** Runs of the loop, by the way they end *)

Section LoopRuns.

Context {P : Provider}.
Variable func : Z -> list float -> outcome mpf.
Variable args : list float.

Lemma after_loop_no_eval_event (l : locals) (tr : list event) (c : completion)
      (pre post : list event) (d : Z) :
  after_loop args l = (tr, c) -> tr <> pre ++ Eval d :: post.
Proof.
  intros H Htr. apply after_loop_no_eval in H.
  rewrite Htr in H. clear Htr.
  induction pre as [|e pre IH]; simpl in H.
  - discriminate H.
  - destruct e; [discriminate H | exact (IH H)].
Qed.

(** A division by zero ends the run at once: the evaluation that raised
    it is the last event, and the result is NaN. *)
Lemma loop_zero_division (fuel : nat) :
  forall (l : locals) (tr : list event) (c : completion)
         (pre post : list event) (d : Z),
    loop func fuel args l = (tr, c) ->
    tr = pre ++ Eval d :: post ->
    func d args = Throw ZeroDivisionError ->
    post = [] /\ c = Return AtZeroDivision nan.
Proof.
  induction fuel as [|fuel IH]; intros l tr c pre post d Hloop Htr Hfunc.
  - rewrite loop_unfold in Hloop. destruct (dps l <=? 2 ^ 16).
    + injection Hloop as <- <-. destruct pre; discriminate Htr.
    + exfalso. exact (after_loop_no_eval_event l tr c pre post d Hloop Htr).
  - destruct (Z_le_gt_dec (dps l) (2 ^ 16)) as [Hle|Hgt].
    + destruct (loop_step func args (S fuel) l tr c Hle Hloop)
        as [(Hf & _ & _)|[(Hbody & ->)|(fuel' & l' & tr' & Hf & Hbody & Hloop' & ->)]].
      * discriminate Hf.
      * destruct pre as [|e pre].
        -- injection Htr as <- <-. split; [reflexivity|].
           unfold body in Hbody.
           rewrite (evaluate_zero_division func _ args Hfunc) in Hbody.
           injection Hbody as <-. reflexivity.
        -- destruct pre; discriminate Htr.
      * injection Hf as <-.
        destruct pre as [|e pre].
        -- injection Htr as <- _. exfalso.
           unfold body in Hbody.
           rewrite (evaluate_zero_division func _ args Hfunc) in Hbody.
           discriminate Hbody.
        -- injection Htr as _ Htr'.
           exact (IH l' tr' c pre post d Hloop' Htr' Hfunc).
    + rewrite loop_done in Hloop by lia.
      exfalso. exact (after_loop_no_eval_event l tr c pre post d Hloop Htr).
Qed.

(** A domain error does not end the run: either the next precision is
    evaluated, or the precision was the last one the guard admits and the
    run ends after the loop, with the warning and the result infinity. *)
Lemma loop_domain_error (fuel : nat) :
  forall (l : locals) (tr : list event) (c : completion)
         (pre post : list event) (d : Z),
    loop func fuel args l = (tr, c) ->
    c <> OutOfFuel ->
    tr = pre ++ Eval d :: post ->
    func d args = Throw ValueError ->
    (2 * d <= 2 ^ 16 -> exists post', post = Eval (2 * d) :: post')
    /\ (2 ^ 16 < 2 * d -> post = [Warning args] /\ c = Return AtExhausted inf).
Proof.
  induction fuel as [|fuel IH]; intros l tr c pre post d Hloop Hc Htr Hfunc.
  - rewrite loop_unfold in Hloop. destruct (dps l <=? 2 ^ 16).
    + injection Hloop as <- <-. destruct pre; discriminate Htr.
    + exfalso. exact (after_loop_no_eval_event l tr c pre post d Hloop Htr).
  - destruct (Z_le_gt_dec (dps l) (2 ^ 16)) as [Hle|Hgt].
    + destruct (loop_step func args (S fuel) l tr c Hle Hloop)
        as [(Hf & _ & _)|[(Hbody & ->)|(fuel' & l' & tr' & Hf & Hbody & Hloop' & ->)]].
      * discriminate Hf.
      * exfalso. destruct pre as [|e pre].
        -- injection Htr as <- _.
           unfold body in Hbody.
           rewrite (evaluate_domain_error func _ args Hfunc) in Hbody.
           destruct (zprev l); discriminate Hbody.
        -- destruct pre; discriminate Htr.
      * injection Hf as <-.
        destruct pre as [|e pre].
        -- injection Htr as <- <-.
           unfold body in Hbody.
           rewrite (evaluate_domain_error func _ args Hfunc) in Hbody.
           assert (Hl' : l' = {| dps := 2 * dps l; zprev := Some inf; z := Some inf |}).
           { destruct (zprev l); simpl in Hbody; injection Hbody as <-; reflexivity. }
           subst l'. split.
           ++ intros Hnext.
              destruct (loop_head func args fuel
                          {| dps := 2 * dps l; zprev := Some inf; z := Some inf |}
                          tr' c Hnext Hloop' Hc) as [post' ->].
              exists post'. reflexivity.
           ++ intros Hlast.
              rewrite loop_done in Hloop' by (cbn [dps]; exact Hlast).
              injection Hloop' as <- <-. split; reflexivity.
        -- injection Htr as _ Htr'.
           exact (IH l' tr' c pre post d Hloop' Hc Htr' Hfunc).
    + rewrite loop_done in Hloop by lia.
      exfalso. exact (after_loop_no_eval_event l tr c pre post d Hloop Htr).
Qed.

(** A run that ends after the loop evaluated at the current precision
    and at its doubles up to the last one the guard admits; its result is
    the value computed there, and the warning follows unless it is NaN. *)
Lemma loop_exhausted (fuel : nat) :
  forall (l : locals) (tr : list event) (v : float),
    0 < dps l ->
    dps l <= 2 ^ 16 ->
    loop func fuel args l = (tr, Return AtExhausted v) ->
    exists n : nat,
      tr = map Eval (doublings (S n) (dps l)) ++ final_warning args v
      /\ evaluate func (dps l * 2 ^ Z.of_nat n) args = Computed v
      /\ dps l * 2 ^ Z.of_nat n <= 2 ^ 16 < dps l * 2 ^ Z.of_nat (S n).
Proof.
  induction fuel as [|fuel IH]; intros l tr v Hpos Hle Hloop.
  - destruct (loop_step func args O l tr _ Hle Hloop)
      as [(_ & _ & Hc)|[(Hbody & _)|(fuel' & _ & _ & Hf & _)]].
    + discriminate Hc.
    + apply body_stop_site in Hbody.
      destruct Hbody as [[w Hw]|[[w Hw]|[e He]]]; discriminate.
    + discriminate Hf.
  - destruct (loop_step func args (S fuel) l tr _ Hle Hloop)
      as [(Hf & _ & _)|[(Hbody & _)|(fuel' & l' & tr' & Hf & Hbody & Hloop' & ->)]].
    + discriminate Hf.
    + apply body_stop_site in Hbody.
      destruct Hbody as [[w Hw]|[[w Hw]|[e He]]]; discriminate.
    + injection Hf as <-.
      apply body_continue in Hbody. destruct Hbody as (zc & Heval & _ & ->).
      destruct (Z_le_gt_dec (2 * dps l) (2 ^ 16)) as [Hnext|Hlast].
      * assert (Hpos' : 0 < 2 * dps l) by lia.
        destruct (IH {| dps := 2 * dps l; zprev := Some zc; z := Some zc |}
                    tr' v Hpos' Hnext Hloop') as (n & -> & Hev & Hlo & Hhi).
        cbn [dps] in Hev, Hlo, Hhi.
        exists (S n).
        assert (Hpow : forall k : nat,
                   dps l * 2 ^ Z.of_nat (S k) = 2 * dps l * 2 ^ Z.of_nat k).
        { intros k. rewrite Nat2Z.inj_succ, Z.pow_succ_r by lia. ring. }
        rewrite !Hpow. repeat split; assumption.
      * rewrite loop_done in Hloop' by (cbn [dps]; lia).
        apply after_loop_cases in Hloop'.
        destruct Hloop' as [(_ & _ & Hc)|(w & Hz & -> & Hc)]; [discriminate Hc|].
        cbn [z] in Hz. injection Hz as <-. injection Hc as <-.
        exists O. change (Z.of_nat 0) with 0. change (Z.of_nat 1) with 1.
        rewrite Z.pow_0_r, Z.pow_1_r, Z.mul_1_r.
        repeat split; try assumption; lia.
Qed.

(** A run whose fresh state has no previous value cannot end by
    convergence before its second evaluation. *)
Lemma loop_converged_fresh (fuel : nat) (l : locals) (tr : list event) (v : float) :
  zprev l = None ->
  dps l <= 2 ^ 16 ->
  loop func fuel args l = (tr, Return AtConverged v) ->
  exists rest, tr = Eval (dps l) :: Eval (2 * dps l) :: rest.
Proof.
  intros Hprev Hle Hloop.
  destruct (loop_step func args fuel l tr _ Hle Hloop)
    as [(_ & _ & Hc)|[(Hbody & _)|(fuel' & l' & tr' & _ & Hbody & Hloop' & ->)]].
  - discriminate Hc.
  - exfalso. apply body_stop in Hbody. destruct Hbody as [H|(zc & _ & Hconv & _)].
    + apply evaluate_aborted in H.
      destruct H as [[_ H]|(e & _ & H)]; discriminate H.
    + rewrite Hprev in Hconv. discriminate Hconv.
  - apply body_continue in Hbody. destruct Hbody as (zc & _ & _ & ->).
    rewrite loop_unfold in Hloop'. cbn [dps] in Hloop'.
    destruct (2 * dps l <=? 2 ^ 16).
    + destruct fuel' as [|fuel'']; [discriminate Hloop'|].
      destruct (body func args _) as [l''|c''].
      * destruct (loop func fuel'' args l'') as [tr'' c''].
        injection Hloop' as <- _. eexists. reflexivity.
      * injection Hloop' as <- _. eexists. reflexivity.
    + apply after_loop_cases in Hloop'.
      destruct Hloop' as [(_ & _ & Hc)|(w & _ & _ & Hc)]; discriminate Hc.
Qed.

End LoopRuns.

(** ** Arithmetic of the precision schedule *)

Lemma doublings_prefix (n m : nat) (d x : Z) :
  (n <= m)%nat -> In x (doublings n d) -> In x (doublings m d).
Proof.
  revert m d. induction n as [|n IH]; intros m d Hle Hin; [destruct Hin|].
  destruct m as [|m]; [lia|].
  simpl in Hin |- *. destruct Hin as [<-|Hin]; [left; reflexivity|].
  right. apply IH; [lia | exact Hin].
Qed.

(** A precision of the schedule below [2 ** 16] can be doubled within it. *)
Lemma schedule_next (n : nat) (d : Z) :
  (n <= 13)%nat -> In d (doublings n 16) -> d < 2 ^ 16 -> 2 * d <= 2 ^ 16.
Proof.
  intros Hn Hin Hlt.
  apply (doublings_prefix n 13 16 d Hn) in Hin.
  change (2 ^ 16) with 65536 in *.
  cbv [doublings] in Hin. cbn in Hin.
  repeat (destruct Hin as [<-|Hin]; [lia|]). destruct Hin.
Qed.

(** From 16 digits on, the thirteenth precision is the last one the loop
    guard admits. *)
Lemma schedule_last (n : nat) :
  2 ^ 4 * 2 ^ Z.of_nat n <= 2 ^ 16 < 2 ^ 4 * 2 ^ Z.of_nat (S n) -> n = 12%nat.
Proof.
  intros [Hlo Hhi].
  destruct (Nat.lt_trichotomy n 12) as [Hlt|[Heq|Hgt]]; [exfalso | exact Heq | exfalso].
  - assert (H : 2 ^ Z.of_nat (S n) <= 2 ^ 12) by (apply Z.pow_le_mono_r; lia).
    change (2 ^ 12) with 4096 in H. change (2 ^ 16) with 65536 in Hhi.
    change (2 ^ 4) with 16 in Hhi. lia.
  - assert (H : 2 ^ 13 <= 2 ^ Z.of_nat n) by (apply Z.pow_le_mono_r; lia).
    change (2 ^ 13) with 8192 in H. change (2 ^ 16) with 65536 in Hlo.
    change (2 ^ 4) with 16 in Hlo. lia.
Qed.

Lemma evals_app (tr1 tr2 : list event) : evals (tr1 ++ tr2) = evals tr1 ++ evals tr2.
Proof.
  induction tr1 as [|e tr1 IH]; simpl; [reflexivity|].
  destruct e; simpl; rewrite IH; reflexivity.
Qed.

Lemma warnings_app (tr1 tr2 : list event) :
  warnings (tr1 ++ tr2) = warnings tr1 ++ warnings tr2.
Proof.
  induction tr1 as [|e tr1 IH]; simpl; [reflexivity|].
  destruct e; simpl; rewrite IH; reflexivity.
Qed.

Lemma warnings_map_Eval (ds : list Z) : warnings (map Eval ds) = [].
Proof. induction ds as [|d ds IH]; simpl; [reflexivity | exact IH]. Qed.

(** ** The wrapper *)

Section Wrapper.

Context {P : Provider}.
Variable func : Z -> list float -> outcome mpf.

(** The three ways through the pre-checks, and the loop. *)
Lemma wrapper_cases (args : list float) (tr : list event) (c : completion) :
  wrapper func args = (tr, c) ->
  (tr = [] /\ ((existsb isnan args = true /\ c = Return AtNaNCheck nan)
               \/ (args = [] /\ c = Raise IndexError)
               \/ (exists a0 rest, args = a0 :: rest /\ isinf a0 = true
                                   /\ c = Return AtInfCheck a0)))
  \/ (existsb isnan args = false
      /\ (exists a0 rest, args = a0 :: rest /\ isinf a0 = false)
      /\ loop func loop_fuel args initial = (tr, c)).
Proof.
  unfold wrapper. destruct (existsb isnan args) eqn:Hnan.
  - intros H. injection H as <- <-. left. split; [reflexivity|].
    left. split; reflexivity.
  - destruct args as [|a0 rest].
    + intros H. injection H as <- <-. left. split; [reflexivity|].
      right. left. split; reflexivity.
    + destruct (isinf a0) eqn:Hinf.
      * intros H. injection H as <- <-. left. split; [reflexivity|].
        right. right. exists a0, rest. repeat split. exact Hinf.
      * intros H. right. repeat split; [|exact H].
        exists a0, rest. split; [reflexivity | exact Hinf].
Qed.

Lemma wrapper_loop (args : list float) (tr pre post : list event)
      (c : completion) (d : Z) :
  wrapper func args = (tr, c) ->
  tr = pre ++ Eval d :: post ->
  loop func loop_fuel args initial = (tr, c).
Proof.
  intros H Htr. apply wrapper_cases in H.
  destruct H as [[-> _]|(_ & _ & H)]; [|exact H].
  destruct pre; discriminate Htr.
Qed.

(** The fuel of the wrapper is enough: thirteen iterations are. *)
Lemma loop_fuel_enough (args : list float) (tr : list event) (c : completion) :
  loop func loop_fuel args initial = (tr, c) ->
  c <> OutOfFuel
  /\ (length (evals tr) <= 13)%nat
  /\ evals tr = doublings (length (evals tr)) 16
  /\ Forall (fun d => d <= 2 ^ 16) (evals tr).
Proof.
  intros H.
  apply (loop_bounded func args 13 loop_fuel initial tr c); try exact H.
  - unfold loop_fuel. lia.
  - reflexivity.
  - reflexivity.
Qed.

Lemma In_evals (tr pre post : list event) (d : Z) :
  tr = pre ++ Eval d :: post -> In d (evals tr).
Proof.
  intros ->. rewrite evals_app. apply in_or_app. right. left. reflexivity.
Qed.

End Wrapper.

(** * The claims *)

Section Evaluator.

Context {P : Provider}.
Variable func : Z -> list float -> outcome mpf.

(** C2 (amended): whenever the loop is exhausted without convergence, the
    call evaluated the expression at the thirteen precisions from 16 to
    65536 digits and returns the value computed at 65536 digits (the
    narrowed result, or infinity after a domain error), whatever it is,
    NaN and infinities included.  The warning, which carries the original
    arguments, is the last event before the return, and it is emitted
    exactly when that value is not NaN. *)
Theorem exhaustion_returns_last_value
        (args : list float) (tr : list event) (v : float) :
  wrapper func args = (tr, Return AtExhausted v) ->
  evaluate func (2 ^ 16) args = Computed v
  /\ tr = map Eval (doublings 13 16) ++ final_warning args v
  /\ (isnan v = false -> warnings tr = [args])
  /\ (isnan v = true -> warnings tr = []).
Proof.
  intros H. apply wrapper_cases in H.
  destruct H as [[_ [[_ H]|[[_ H]|(a0 & rest & _ & _ & H)]]]|(_ & _ & H)];
    try discriminate H.
  apply loop_exhausted in H; [|reflexivity|discriminate].
  destruct H as (n & Htr & Hev & Hbounds).
  change (dps initial) with (2 ^ 4) in *.
  pose proof (schedule_last n Hbounds) as ->.
  change (2 ^ 4 * 2 ^ Z.of_nat 12) with (2 ^ 16) in Hev.
  change (doublings 13 (2 ^ 4)) with (doublings 13 16) in Htr.
  split; [exact Hev|]. split; [exact Htr|].
  rewrite Htr, warnings_app, warnings_map_Eval. unfold final_warning.
  split; intros ->; reflexivity.
Qed.

(** The loop of the wrapper never runs out of the model's fuel: every
    call ends. *)
Lemma wrapper_total (args : list float) :
  snd (wrapper func args) <> OutOfFuel.
Proof.
  destruct (wrapper func args) as [tr c] eqn:Hrun. cbn [snd].
  apply wrapper_cases in Hrun.
  destruct Hrun as [[_ Hpre]|(_ & _ & Hloop)].
  - destruct Hpre as [[_ ->]|[[_ ->]|(a0 & rest & _ & _ & ->)]]; discriminate.
  - exact (proj1 (loop_fuel_enough func args tr c Hloop)).
Qed.

(** C3 (amended): a call that passes the pre-checks and enters the loop
    ends (the loop does not run out of the model's fuel, and any bound of
    at least thirteen iterations gives the same run); it evaluates first at
    16 digits and then at the successive doubles, never above 65536 digits,
    and it runs at most thirteen iterations. *)
Theorem working_precision_schedule
        (args : list float) (a0 : float) (rest : list float) :
  existsb isnan args = false ->
  args = a0 :: rest ->
  isinf a0 = false ->
  snd (wrapper func args) <> OutOfFuel
  /\ (exists n : nat,
         (1 <= n <= 13)%nat
         /\ evals (fst (wrapper func args)) = doublings n 16)
  /\ Forall (fun d => d <= 2 ^ 16) (evals (fst (wrapper func args)))
  /\ (forall fuel : nat,
         (13 <= fuel)%nat -> loop func fuel args initial = wrapper func args).
Proof.
  intros Hnan Hargs Hinf.
  assert (Hrun : wrapper func args = loop func loop_fuel args initial).
  { unfold wrapper. rewrite Hnan. subst args. rewrite Hinf. reflexivity. }
  rewrite Hrun.
  destruct (loop func loop_fuel args initial) as [tr c] eqn:Hloop. cbn [fst snd].
  destruct (loop_fuel_enough func args tr c Hloop) as (Hc & Hlen & Hev & Hall).
  destruct (loop_head func args loop_fuel initial tr c ltac:(discriminate) Hloop Hc)
    as [tr' ->].
  repeat split; try assumption.
  - exists (length (evals (Eval (dps initial) :: tr'))).
    split; [split; [cbn [evals length]; lia | exact Hlen] | exact Hev].
  - intros fuel Hfuel.
    destruct (loop func 13 args initial) as [tr13 c13] eqn:H13.
    assert (Hc13 : c13 <> OutOfFuel).
    { apply (loop_bounded func args 13 13 initial tr13 c13);
        [lia | reflexivity | reflexivity | exact H13]. }
    rewrite (loop_fuel_monotone func args 13 fuel initial tr13 c13 Hfuel H13 Hc13).
    rewrite <- Hloop. symmetry.
    apply (loop_fuel_monotone func args 13 loop_fuel initial tr13 c13);
      [unfold loop_fuel; lia | exact H13 | exact Hc13].
Qed.

(** C4: in an iteration that computed the narrowed value [zc] (the result
    of the expression, or infinity after a domain error), the loop
    returns [zc] exactly when a previous value is recorded, it is finite,
    [zc] is finite and [zc] is close to it ([math.isclose], relative
    tolerance 1e-9, absolute tolerance 0); otherwise it records [zc] as
    the previous value and goes on at twice the precision. *)
Theorem convergence_test_exact (args : list float) (l : locals) (zc : float) :
  evaluate func (dps l) args = Computed zc ->
  ((exists zp, zprev l = Some zp /\ isfinite zp = true
               /\ isfinite zc = true /\ isclose zc zp = true) ->
   body func args l = Stop (Return AtConverged zc))
  /\ (~ (exists zp, zprev l = Some zp /\ isfinite zp = true
                    /\ isfinite zc = true /\ isclose zc zp = true) ->
      body func args l
      = Continue {| dps := 2 * dps l; zprev := Some zc; z := Some zc |})
  /\ (forall c, body func args l = Stop c ->
      c = Return AtConverged zc
      /\ exists zp, zprev l = Some zp /\ isfinite zp = true
                    /\ isfinite zc = true /\ isclose zc zp = true).
Proof.
  intros Heval. unfold body. rewrite Heval.
  destruct (converged (zprev l) zc) eqn:Hconv.
  - apply converged_spec in Hconv. repeat split.
    + intros H. contradiction (H Hconv).
    + injection H as <-. reflexivity.
    + exact Hconv.
  - assert (Hnot : ~ (exists zp, zprev l = Some zp /\ isfinite zp = true
                                 /\ isfinite zc = true /\ isclose zc zp = true)).
    { intros H. apply converged_spec in H. rewrite H in Hconv. discriminate Hconv. }
    repeat split.
    + intros H. contradiction (Hnot H).
    + discriminate H.
    + discriminate H.
Qed.

(** C7: when an evaluation of the expression raises a division by zero,
    that evaluation is the last event of the call (no higher precision is
    tried, no warning is logged) and the call returns NaN. *)
Theorem zero_division_aborts
        (args : list float) (tr pre post : list event) (c : completion) (d : Z) :
  wrapper func args = (tr, c) ->
  tr = pre ++ Eval d :: post ->
  func d args = Throw ZeroDivisionError ->
  post = [] /\ c = Return AtZeroDivision nan.
Proof.
  intros Hrun Htr Hfunc.
  pose proof (wrapper_loop func args tr pre post c d Hrun Htr) as Hloop.
  exact (loop_zero_division func args loop_fuel initial tr c pre post d
           Hloop Htr Hfunc).
Qed.

(** C8: when an evaluation of the expression raises a domain error, the
    value of that iteration is infinity and the call goes on: below 65536
    digits the next event is the evaluation at twice the precision; at
    65536 digits, the final iteration, the call logs the warning and
    returns infinity. *)
Theorem domain_error_is_retried
        (args : list float) (tr pre post : list event) (c : completion) (d : Z) :
  wrapper func args = (tr, c) ->
  tr = pre ++ Eval d :: post ->
  func d args = Throw ValueError ->
  evaluate func d args = Computed inf
  /\ (d < 2 ^ 16 -> exists post', post = Eval (2 * d) :: post')
  /\ (d = 2 ^ 16 -> post = [Warning args] /\ c = Return AtExhausted inf).
Proof.
  intros Hrun Htr Hfunc.
  pose proof (wrapper_loop func args tr pre post c d Hrun Htr) as Hloop.
  destruct (loop_fuel_enough func args tr c Hloop) as (Hc & Hlen & Hev & _).
  destruct (loop_domain_error func args loop_fuel initial tr c pre post d
              Hloop Hc Htr Hfunc) as [Hnext Hlast].
  split; [exact (evaluate_domain_error func d args Hfunc)|]. split.
  - intros Hlt. apply Hnext.
    apply (schedule_next (length (evals tr)) d Hlen); [|exact Hlt].
    rewrite <- Hev. exact (In_evals tr pre post d Htr).
  - intros ->. apply Hlast. reflexivity.
Qed.

(** C10: a call that returns a converged value has evaluated the
    expression at least twice, first at 16 and then at 32 digits: the
    convergence test cannot succeed in the first iteration, where no
    previous value is recorded. *)
Theorem no_convergence_on_first_iteration
        (args : list float) (tr : list event) (v : float) :
  wrapper func args = (tr, Return AtConverged v) ->
  converged (zprev initial) v = false
  /\ exists rest, tr = Eval 16 :: Eval 32 :: rest.
Proof.
  intros H. split; [reflexivity|].
  apply wrapper_cases in H.
  destruct H as [[_ [[_ H]|[[_ H]|(a0 & rest & _ & _ & H)]]]|(_ & _ & H)];
    try discriminate H.
  apply loop_converged_fresh in H; [exact H | reflexivity | discriminate].
Qed.

End Evaluator.

Section ConverterClaims.

Context {P : Provider}.

(** The guard of [f2z_convert] answers [mpf("0")], which narrows to 0.0,
    at every precision. *)
Lemma f2z_body_guard (d : Z) (x d1 d2 : float) :
  ltb x zero = true \/ ltb d1 zero = true \/ ltb d2 zero = true ->
  evaluate f2z_body d [x; d1; d2] = Computed zero.
Proof.
  intros H. unfold evaluate, f2z_body.
  assert (Hguard : ltb x zero || ltb d1 zero || ltb d2 zero = true).
  { destruct H as [-> | [-> | ->]]; rewrite ?orb_true_r; reflexivity. }
  rewrite Hguard, to_float_mpf_zero. reflexivity.
Qed.

(** C1 (amended): when no argument is NaN, the statistic is not
    infinite, and the statistic or one of the degrees of freedom is
    negative, [f2z_convert] returns exactly 0.0.  The value does not bypass
    the evaluator: it comes out of the precision loop, which evaluates the
    guarded body twice, at 16 and at 32 digits, and accepts the second
    value as converged. *)
Theorem f2z_negative_sentinel (x d1 d2 : float) :
  isnan x = false -> isnan d1 = false -> isnan d2 = false ->
  isinf x = false ->
  ltb x zero = true \/ ltb d1 zero = true \/ ltb d2 zero = true ->
  f2z_convert x d1 d2 = ([Eval 16; Eval 32], Return AtConverged zero).
Proof.
  intros Hx Hd1 Hd2 Hinf Hneg.
  unfold f2z_convert, wrapper. cbn [existsb].
  rewrite Hx, Hd1, Hd2, Hinf. cbn [orb].
  unfold loop_fuel.
  rewrite loop_unfold. change (dps initial <=? 2 ^ 16) with true. cbv iota.
  unfold body at 1. rewrite (f2z_body_guard _ x d1 d2 Hneg).
  change (converged (zprev initial) zero) with false. cbv iota.
  rewrite loop_unfold. cbn [dps]. change (2 * dps initial <=? 2 ^ 16) with true.
  cbv iota.
  unfold body. cbn [dps zprev]. rewrite (f2z_body_guard _ x d1 d2 Hneg).
  change (converged (Some zero) zero) with true. cbv iota.
  reflexivity.
Qed.

(** C5: when no argument is NaN and the statistic is plus or minus
    infinity, [t2z_convert] and [f2z_convert] return the statistic itself,
    the same signed infinity, at the second pre-check and without any
    evaluation of the expression. *)
Theorem infinite_statistic_returned (t nu x d1 d2 : float) :
  isnan nu = false -> isnan d1 = false -> isnan d2 = false ->
  t = inf \/ t = neg_inf ->
  x = inf \/ x = neg_inf ->
  t2z_convert t nu = ([], Return AtInfCheck t)
  /\ f2z_convert x d1 d2 = ([], Return AtInfCheck x).
Proof.
  intros Hnu Hd1 Hd2 Ht Hx. split.
  - unfold t2z_convert, wrapper. cbn [existsb].
    rewrite Hnu. destruct Ht as [-> | ->]; reflexivity.
  - unfold f2z_convert, wrapper. cbn [existsb].
    rewrite Hd1, Hd2. destruct Hx as [-> | ->]; reflexivity.
Qed.

(** C6: when any argument is NaN, [t2z_convert] and [f2z_convert] return
    NaN at the first pre-check, without any evaluation of the
    expression. *)
Theorem nan_argument_returns_nan (t nu x d1 d2 : float) :
  isnan t = true \/ isnan nu = true ->
  isnan x = true \/ isnan d1 = true \/ isnan d2 = true ->
  t2z_convert t nu = ([], Return AtNaNCheck nan)
  /\ f2z_convert x d1 d2 = ([], Return AtNaNCheck nan).
Proof.
  intros Ht Hx. split.
  - unfold t2z_convert, wrapper. cbn [existsb].
    destruct Ht as [-> | ->]; rewrite ?orb_true_r; reflexivity.
  - unfold f2z_convert, wrapper. cbn [existsb].
    destruct Hx as [-> | [-> | ->]]; rewrite ?orb_true_r; reflexivity.
Qed.

End ConverterClaims.

(** * Concrete runs *)

Module Runs.

Import Examples.

(** [f2z_convert(-1.0, 5.0, 5.0)] is 0.0, after two evaluations. *)
Lemma f2z_negative_sentinel_witness :
  ltb (of_Z (-1)) zero = true
  /\ f2z_convert (P := double_provider) (of_Z (-1)) (of_Z 5) (of_Z 5)
     = ([Eval 16; Eval 32], Return AtConverged zero).
Proof.
  split; [reflexivity|].
  apply (f2z_negative_sentinel (P := double_provider)); try reflexivity.
  left. reflexivity.
Defined.

(** [f2z_convert(-inf, 1.0, 1.0)]: the statistic is negative and the
    result is minus infinity, not 0.0, with any provider; it is returned
    by the second pre-check of the evaluator. *)
Lemma f2z_negative_infinity_not_zero :
  ltb neg_inf zero = true
  /\ (forall P : Provider,
         f2z_convert (P := P) neg_inf (of_Z 1) (of_Z 1)
         = ([], Return AtInfCheck neg_inf))
  /\ neg_inf <> zero.
Proof.
  split; [reflexivity|]. split; [intros P; reflexivity | discriminate].
Qed.

(** A run exhausted by domain errors: infinity, with the warning. *)
Lemma exhaustion_returns_last_value_witness :
  wrapper (P := double_provider) domain_error_always two_args
  = (map Eval (doublings 13 16) ++ [Warning two_args], Return AtExhausted inf)
  /\ evaluate (P := double_provider) domain_error_always (2 ^ 16) two_args
     = Computed inf
  /\ warnings (map Eval (doublings 13 16) ++ [Warning two_args]) = [two_args].
Proof.
  assert (H : wrapper (P := double_provider) domain_error_always two_args
              = (map Eval (doublings 13 16) ++ [Warning two_args],
                 Return AtExhausted inf)) by reflexivity.
  split; [exact H|].
  destruct (exhaustion_returns_last_value (P := double_provider)
              domain_error_always two_args _ inf H) as (Hlast & _ & Hwarn & _).
  split; [exact Hlast | exact (Hwarn eq_refl)].
Defined.

(** An expression that is NaN at every precision exhausts the loop, and
    the call returns NaN without any warning. *)
Lemma exhaustion_nan_no_warning :
  wrapper (P := double_provider) nan_always two_args
  = (map Eval (doublings 13 16), Return AtExhausted nan)
  /\ warnings (fst (wrapper (P := double_provider) nan_always two_args)) = [].
Proof. split; reflexivity. Qed.

(** An expression outside its domain at every precision is evaluated
    thirteen times, at 16, 32, ..., 65536 digits. *)
Lemma thirteen_iterations :
  evals (fst (wrapper (P := double_provider) domain_error_always two_args))
  = [16; 32; 64; 128; 256; 512; 1024; 2048; 4096; 8192; 16384; 32768; 65536]
  /\ (12 < length (evals (fst (wrapper (P := double_provider)
                                  domain_error_always two_args))))%nat.
Proof. split; [reflexivity | vm_compute; lia]. Qed.

(** The schedule of a run that never converges: thirteen precisions. *)
Lemma working_precision_schedule_witness :
  existsb isnan two_args = false
  /\ isinf (of_Z 1) = false
  /\ snd (wrapper (P := double_provider) domain_error_always two_args) <> OutOfFuel
  /\ Forall (fun d => d <= 2 ^ 16)
       (evals (fst (wrapper (P := double_provider) domain_error_always two_args))).
Proof.
  split; [reflexivity|]. split; [reflexivity|].
  destruct (working_precision_schedule (P := double_provider) domain_error_always
              two_args (of_Z 1) [of_Z 2] eq_refl eq_refl eq_refl)
    as (Hends & _ & Hbound & _).
  split; [exact Hends | exact Hbound].
Defined.

(** [t2z_convert(inf, 1.0)] and [f2z_convert(-inf, 1.0, 1.0)], the calls of
    the repository's [test_nonfinite]. *)
Lemma infinite_statistic_returned_witness :
  t2z_convert (P := double_provider) inf (of_Z 1) = ([], Return AtInfCheck inf)
  /\ f2z_convert (P := double_provider) neg_inf (of_Z 1) (of_Z 1)
     = ([], Return AtInfCheck neg_inf).
Proof.
  apply (infinite_statistic_returned (P := double_provider));
    try reflexivity; [left | right]; reflexivity.
Defined.

(** [t2z_convert(nan, 1.0)] and [f2z_convert(-1.0, nan, 1.0)]. *)
Lemma nan_argument_returns_nan_witness :
  t2z_convert (P := double_provider) nan (of_Z 1) = ([], Return AtNaNCheck nan)
  /\ f2z_convert (P := double_provider) (of_Z (-1)) nan (of_Z 1)
     = ([], Return AtNaNCheck nan).
Proof.
  apply (nan_argument_returns_nan (P := double_provider));
    [left | right; left]; reflexivity.
Defined.

(** The second iteration of a constant expression converges. *)
Lemma convergence_test_exact_witness :
  evaluate (P := double_provider) one_always 32 two_args = Computed (of_Z 1)
  /\ body (P := double_provider) one_always two_args
       {| dps := 32; zprev := Some (of_Z 1); z := Some (of_Z 1) |}
     = Stop (Return AtConverged (of_Z 1)).
Proof.
  assert (H : evaluate (P := double_provider) one_always
                (dps {| dps := 32; zprev := Some (of_Z 1); z := Some (of_Z 1) |})
                two_args = Computed (of_Z 1)) by reflexivity.
  split; [exact H|].
  destruct (convergence_test_exact (P := double_provider) one_always two_args
              {| dps := 32; zprev := Some (of_Z 1); z := Some (of_Z 1) |}
              (of_Z 1) H) as (Hyes & _ & _).
  apply Hyes. exists (of_Z 1). repeat split.
Defined.

(** A division by zero at 64 digits: the run stops there, with NaN. *)
Lemma zero_division_aborts_witness :
  wrapper (P := double_provider) (singular_at 64) two_args
  = ([Eval 16; Eval 32] ++ Eval 64 :: [], Return AtZeroDivision nan)
  /\ singular_at 64 64 two_args = Throw ZeroDivisionError.
Proof.
  split; [|reflexivity].
  destruct (wrapper (P := double_provider) (singular_at 64) two_args)
    as [tr c] eqn:Hrun.
  assert (Htr : tr = [Eval 16; Eval 32] ++ Eval 64 :: []).
  { vm_compute in Hrun. injection Hrun as <- _. reflexivity. }
  destruct (zero_division_aborts (P := double_provider) (singular_at 64)
              two_args tr [Eval 16; Eval 32] [] c 64 Hrun Htr eq_refl)
    as (_ & ->).
  rewrite Htr. reflexivity.
Defined.

(** A domain error at 32 digits is followed by the evaluation at 64; a
    domain error at 65536 digits ends the call with the warning and
    infinity. *)
Lemma domain_error_is_retried_witness :
  (exists post', skipn 2 (fst (wrapper (P := double_provider)
                                 (domain_error_at 32) two_args))
                 = Eval (2 * 32) :: post')
  /\ snd (wrapper (P := double_provider) (domain_error_at (2 ^ 16)) two_args)
     = Return AtExhausted inf.
Proof.
  split.
  - destruct (wrapper (P := double_provider) (domain_error_at 32) two_args)
      as [tr c] eqn:Hrun.
    assert (Htr : tr = [Eval 16] ++ Eval 32 :: skipn 2 tr).
    { vm_compute in Hrun. injection Hrun as <- _. reflexivity. }
    destruct (domain_error_is_retried (P := double_provider) (domain_error_at 32)
                two_args tr [Eval 16] (skipn 2 tr) c 32 Hrun Htr eq_refl)
      as (_ & Hnext & _).
    apply Hnext. reflexivity.
  - destruct (wrapper (P := double_provider) (domain_error_at (2 ^ 16)) two_args)
      as [tr c] eqn:Hrun.
    assert (Htr : tr = map Eval (doublings 12 16) ++ Eval (2 ^ 16) :: skipn 13 tr).
    { vm_compute in Hrun. injection Hrun as <- _. reflexivity. }
    destruct (domain_error_is_retried (P := double_provider)
                (domain_error_at (2 ^ 16)) two_args tr
                (map Eval (doublings 12 16)) (skipn 13 tr) c (2 ^ 16)
                Hrun Htr eq_refl) as (_ & _ & Hlast).
    destruct (Hlast eq_refl) as [_ ->]. reflexivity.
Defined.

(** A constant expression converges at its second evaluation. *)
Lemma no_convergence_on_first_iteration_witness :
  wrapper (P := double_provider) one_always two_args
  = ([Eval 16; Eval 32], Return AtConverged (of_Z 1))
  /\ exists rest, [Eval 16; Eval 32] = Eval 16 :: Eval 32 :: rest.
Proof.
  assert (H : wrapper (P := double_provider) one_always two_args
              = ([Eval 16; Eval 32], Return AtConverged (of_Z 1))) by reflexivity.
  split; [exact H|].
  exact (proj2 (no_convergence_on_first_iteration (P := double_provider)
                  one_always two_args _ _ H)).
Defined.

End Runs.

(** * Further properties of the evaluator *)

Section EvaluatorRuns.

Context {P : Provider}.
Variable func : Z -> list float -> outcome mpf.
Variable args : list float.

(** An evaluation that aborts the iteration ends the run with the
    completion it aborted with. *)
Lemma loop_aborted (fuel : nat) :
  forall (l : locals) (tr : list event) (c c0 : completion)
         (pre post : list event) (d : Z),
    loop func fuel args l = (tr, c) ->
    tr = pre ++ Eval d :: post ->
    evaluate func d args = Aborted c0 ->
    post = [] /\ c = c0.
Proof.
  induction fuel as [|fuel IH]; intros l tr c c0 pre post d Hloop Htr Hab.
  - rewrite loop_unfold in Hloop. destruct (dps l <=? 2 ^ 16).
    + injection Hloop as <- <-. destruct pre; discriminate Htr.
    + exfalso. exact (after_loop_no_eval_event args l tr c pre post d Hloop Htr).
  - destruct (Z_le_gt_dec (dps l) (2 ^ 16)) as [Hle|Hgt].
    + destruct (loop_step func args (S fuel) l tr c Hle Hloop)
        as [(Hf & _ & _)|[(Hbody & ->)|(fuel' & l' & tr' & Hf & Hbody & Hloop' & ->)]].
      * discriminate Hf.
      * destruct pre as [|e pre].
        -- injection Htr as <- <-. split; [reflexivity|].
           unfold body in Hbody. rewrite Hab in Hbody.
           injection Hbody as <-. reflexivity.
        -- destruct pre; discriminate Htr.
      * injection Hf as <-.
        destruct pre as [|e pre].
        -- injection Htr as <- _. exfalso.
           unfold body in Hbody. rewrite Hab in Hbody. discriminate Hbody.
        -- injection Htr as _ Htr'.
           exact (IH l' tr' c c0 pre post d Hloop' Htr' Hab).
    + rewrite loop_done in Hloop by lia.
      exfalso. exact (after_loop_no_eval_event args l tr c pre post d Hloop Htr).
Qed.

(** The warnings of a run of the loop, read off its completion. *)
Lemma loop_warnings (fuel : nat) :
  forall (l : locals) (tr : list event) (c : completion),
    loop func fuel args l = (tr, c) ->
    warnings tr
    = match c with
      | Return AtExhausted v => if isnan v then [] else [args]
      | _ => []
      end.
Proof.
  induction fuel as [|fuel IH]; intros l tr c Hloop.
  - rewrite loop_unfold in Hloop. destruct (dps l <=? 2 ^ 16).
    + injection Hloop as <- <-. reflexivity.
    + apply after_loop_cases in Hloop.
      destruct Hloop as [(_ & -> & ->)|(v & _ & -> & ->)]; [reflexivity|].
      unfold final_warning. destruct (isnan v); reflexivity.
  - destruct (Z_le_gt_dec (dps l) (2 ^ 16)) as [Hle|Hgt].
    + destruct (loop_step func args (S fuel) l tr c Hle Hloop)
        as [(Hf & _ & _)|[(Hbody & ->)|(fuel' & l' & tr' & Hf & Hbody & Hloop' & ->)]].
      * discriminate Hf.
      * apply body_stop_site in Hbody.
        destruct Hbody as [[v ->]|[[v ->]|[e ->]]]; reflexivity.
      * injection Hf as <-. cbn [warnings]. exact (IH l' tr' c Hloop').
    + rewrite loop_done in Hloop by lia.
      apply after_loop_cases in Hloop.
      destruct Hloop as [(_ & -> & ->)|(v & _ & -> & ->)]; [reflexivity|].
      unfold final_warning. destruct (isnan v); reflexivity.
Qed.

(** A run of the loop that ends by convergence: its last two evaluations,
    at a precision and its double, computed finite values that are close,
    and the result is the second of them.  When the run converges in its
    first iteration, the earlier value is the one the state recorded. *)
Lemma loop_converged (fuel : nat) :
  forall (l : locals) (tr : list event) (v : float),
    loop func fuel args l = (tr, Return AtConverged v) ->
    (exists p, zprev l = Some p /\ tr = [Eval (dps l)]
               /\ evaluate func (dps l) args = Computed v
               /\ isfinite p = true /\ isfinite v = true /\ isclose v p = true)
    \/ (exists pre d p,
           tr = pre ++ [Eval d; Eval (2 * d)]
           /\ evaluate func d args = Computed p
           /\ evaluate func (2 * d) args = Computed v
           /\ isfinite p = true /\ isfinite v = true /\ isclose v p = true).
Proof.
  induction fuel as [|fuel IH]; intros l tr v Hloop.
  - rewrite loop_unfold in Hloop. destruct (dps l <=? 2 ^ 16).
    + discriminate Hloop.
    + apply after_loop_cases in Hloop.
      destruct Hloop as [(_ & _ & H)|(w & _ & _ & H)]; discriminate H.
  - destruct (Z_le_gt_dec (dps l) (2 ^ 16)) as [Hle|Hgt].
    + destruct (loop_step func args (S fuel) l tr _ Hle Hloop)
        as [(Hf & _ & _)|[(Hbody & ->)|(fuel' & l' & tr' & Hf & Hbody & Hloop' & ->)]].
      * discriminate Hf.
      * left. apply body_stop in Hbody. destruct Hbody as [H|(zc & Hev & Hconv & Hc)].
        -- apply evaluate_aborted in H.
           destruct H as [[_ H]|(e & _ & H)]; discriminate H.
        -- injection Hc as <-. apply converged_spec in Hconv.
           destruct Hconv as (p & Hp & Hfp & Hfv & Hcl).
           exists p. repeat split; assumption.
      * injection Hf as <-. right.
        apply body_continue in Hbody. destruct Hbody as (zc & Hev & _ & ->).
        destruct (IH _ tr' v Hloop')
          as [(p & Hp & -> & Hev' & Hfp & Hfv & Hcl)
             |(pre & d & p & -> & Hev1 & Hev2 & Hfp & Hfv & Hcl)].
        -- cbn [zprev dps] in Hp, Hev' |- *. injection Hp as <-.
           exists [], (dps l), zc. repeat split; assumption.
        -- exists (Eval (dps l) :: pre), d, p. repeat split; assumption.
    + rewrite loop_done in Hloop by lia.
      apply after_loop_cases in Hloop.
      destruct Hloop as [(_ & _ & H)|(w & _ & _ & H)]; discriminate H.
Qed.

End EvaluatorRuns.

(** ** Runs that follow a given sequence of values *)

Lemma schedule_succ (i : nat) : schedule (S i) = 2 * schedule i.
Proof.
  unfold schedule. rewrite Nat2Z.inj_succ, Z.pow_succ_r by lia. ring.
Qed.

Lemma schedule_admitted (i : nat) : (i <= 12)%nat -> schedule i <= 2 ^ 16.
Proof.
  intros Hi. unfold schedule.
  assert (H : 2 ^ Z.of_nat i <= 2 ^ 12) by (apply Z.pow_le_mono_r; lia).
  change (2 ^ 12) with 4096 in H. change (2 ^ 16) with 65536.
  change (2 ^ 4) with 16. lia.
Qed.

Section ValueSequences.

Context {P : Provider}.
Variable func : Z -> list float -> outcome mpf.
Variable args : list float.
Variable zs : nat -> float.

(** One iteration of a run that follows [zs] without converging. *)
Lemma body_unconverged (i : nat) (l : locals) :
  dps l = schedule i ->
  zprev l = previous zs i ->
  evaluate func (schedule i) args = Computed (zs i) ->
  converged (previous zs i) (zs i) = false ->
  body func args l
  = Continue {| dps := schedule (S i); zprev := previous zs (S i);
                z := previous zs (S i) |}.
Proof.
  intros Hd Hp Hev Hconv. unfold body.
  rewrite Hd, Hp, Hev, Hconv, schedule_succ. reflexivity.
Qed.

(** The loop stops at the first iteration whose value is close to the one
    before. *)
Lemma loop_first_stable (k : nat) :
  (k <= 12)%nat ->
  (forall i, (i <= k)%nat -> evaluate func (schedule i) args = Computed (zs i)) ->
  (forall i, (i < k)%nat -> converged (previous zs i) (zs i) = false) ->
  converged (previous zs k) (zs k) = true ->
  forall (m i fuel : nat) (l : locals),
    (i + m = k)%nat ->
    (m < fuel)%nat ->
    dps l = schedule i ->
    zprev l = previous zs i ->
    loop func fuel args l
    = (map Eval (doublings (S m) (schedule i)), Return AtConverged (zs k)).
Proof.
  intros Hk Hev Hno Hyes.
  induction m as [|m IH]; intros i fuel l Him Hfuel Hd Hp.
  - assert (i = k) by lia. subst i.
    destruct fuel as [|fuel]; [lia|].
    rewrite loop_unfold.
    pose proof (schedule_admitted k Hk) as Hle.
    rewrite <- Hd in Hle. apply Z.leb_le in Hle. rewrite Hle.
    unfold body. rewrite Hd, Hp, (Hev k (Nat.le_refl k)), Hyes.
    rewrite <- Hd. reflexivity.
  - destruct fuel as [|fuel]; [lia|].
    rewrite loop_unfold.
    pose proof (schedule_admitted i ltac:(lia)) as Hle.
    rewrite <- Hd in Hle. apply Z.leb_le in Hle. rewrite Hle.
    rewrite (body_unconverged i l Hd Hp (Hev i ltac:(lia)) (Hno i ltac:(lia))).
    rewrite (IH (S i) fuel
               {| dps := schedule (S i); zprev := previous zs (S i);
                  z := previous zs (S i) |}
               ltac:(lia) ltac:(lia) eq_refl eq_refl).
    rewrite Hd, schedule_succ. reflexivity.
Qed.

(** A run whose thirteen values never pass the convergence test ends
    after the loop, with the last of them. *)
Lemma loop_never_stable :
  (forall i, (i <= 12)%nat -> evaluate func (schedule i) args = Computed (zs i)) ->
  (forall i, (i <= 12)%nat -> converged (previous zs i) (zs i) = false) ->
  forall (m i fuel : nat) (l : locals),
    (i + m = 13)%nat ->
    (m <= fuel)%nat ->
    dps l = schedule i ->
    zprev l = previous zs i ->
    z l = previous zs i ->
    loop func fuel args l
    = (map Eval (doublings m (schedule i)) ++ final_warning args (zs 12),
       Return AtExhausted (zs 12)).
Proof.
  intros Hev Hno.
  induction m as [|m IH]; intros i fuel l Him Hfuel Hd Hp Hz.
  - assert (i = 13%nat) by lia. subst i.
    rewrite loop_done by (rewrite Hd; reflexivity).
    unfold after_loop, final_warning. rewrite Hz. cbn [previous].
    destruct (isnan (zs 12)); reflexivity.
  - destruct fuel as [|fuel]; [lia|].
    rewrite loop_unfold.
    pose proof (schedule_admitted i ltac:(lia)) as Hle.
    rewrite <- Hd in Hle. apply Z.leb_le in Hle. rewrite Hle.
    rewrite (body_unconverged i l Hd Hp (Hev i ltac:(lia)) (Hno i ltac:(lia))).
    rewrite (IH (S i) fuel
               {| dps := schedule (S i); zprev := previous zs (S i);
                  z := previous zs (S i) |}
               ltac:(lia) ltac:(lia) eq_refl eq_refl eq_refl).
    rewrite Hd, schedule_succ. reflexivity.
Qed.

End ValueSequences.

(** ** Whole calls *)

Section EvaluatorExtras.

Context {P : Provider}.
Variable func : Z -> list float -> outcome mpf.

(** The values the loop can return, by [return] statement. *)
Lemma loop_return_sites (args : list float) (fuel : nat) :
  forall (l : locals) (tr : list event) (s : return_site) (v : float),
    loop func fuel args l = (tr, Return s v) ->
    (s = AtZeroDivision /\ v = nan)
    \/ (s = AtConverged /\ isfinite v = true)
    \/ s = AtExhausted.
Proof.
  induction fuel as [|fuel IH]; intros l tr s v Hloop.
  - rewrite loop_unfold in Hloop. destruct (dps l <=? 2 ^ 16).
    + discriminate Hloop.
    + apply after_loop_cases in Hloop.
      destruct Hloop as [(_ & _ & H)|(w & _ & _ & H)]; [discriminate H|].
      injection H as -> _. right. right. reflexivity.
  - destruct (Z_le_gt_dec (dps l) (2 ^ 16)) as [Hle|Hgt].
    + destruct (loop_step func args (S fuel) l tr _ Hle Hloop)
        as [(Hf & _ & _)|[(Hbody & _)|(fuel' & l' & tr' & Hf & _ & Hloop' & _)]].
      * discriminate Hf.
      * apply body_stop in Hbody. destruct Hbody as [H|(zc & _ & Hconv & Hc)].
        -- apply evaluate_aborted in H. destruct H as [[_ H]|(e & _ & H)].
           ++ injection H as -> ->. left. split; reflexivity.
           ++ discriminate H.
        -- injection Hc as -> ->. right. left. split; [reflexivity|].
           apply converged_spec in Hconv.
           destruct Hconv as (p & _ & _ & Hfv & _). exact Hfv.
      * injection Hf as <-. exact (IH l' tr' s v Hloop').
    + rewrite loop_done in Hloop by lia.
      apply after_loop_cases in Hloop.
      destruct Hloop as [(_ & _ & H)|(w & _ & _ & H)]; [discriminate H|].
      injection H as -> _. right. right. reflexivity.
Qed.

(** X1: the wrapper catches [ValueError] and [ZeroDivisionError] only.  When
    an evaluation of the expression raises any other exception, that
    evaluation is the last event of the call and the call raises the same
    exception: nothing is retried, logged or returned. *)
Theorem unexpected_exception_propagates
        (args : list float) (tr pre post : list event) (c : completion)
        (d : Z) (e : exn) :
  wrapper func args = (tr, c) ->
  tr = pre ++ Eval d :: post ->
  func d args = Throw e ->
  e <> ValueError ->
  e <> ZeroDivisionError ->
  post = [] /\ c = Raise e.
Proof.
  intros Hrun Htr Hfunc Hve Hzd.
  pose proof (wrapper_loop func args tr pre post c d Hrun Htr) as Hloop.
  apply (loop_aborted func args loop_fuel initial tr c (Raise e) pre post d
           Hloop Htr).
  unfold evaluate. rewrite Hfunc.
  destruct e; try reflexivity; [contradiction Hve | contradiction Hzd]; reflexivity.
Qed.

(** X2: the expression is not evaluated at all exactly when a pre-check
    ends the call: some argument is NaN, or the argument tuple is empty, or
    the first argument is infinite.  In every other call it is evaluated at
    least once. *)
Theorem expression_skipped_iff (args : list float) :
  evals (fst (wrapper func args)) = []
  <-> (existsb isnan args = true
       \/ args = []
       \/ exists a0 rest, args = a0 :: rest /\ isinf a0 = true).
Proof.
  destruct (wrapper func args) as [tr c] eqn:Hrun. cbn [fst].
  apply wrapper_cases in Hrun. split.
  - intros Hev.
    destruct Hrun as [[_ Hpre]|(_ & _ & Hloop)].
    + destruct Hpre as [[H _]|[[H _]|(a0 & rest & Ha & Hi & _)]].
      * left. exact H.
      * right. left. exact H.
      * right. right. exists a0, rest. split; assumption.
    + exfalso.
      destruct (loop_fuel_enough func args tr c Hloop) as (Hc & _).
      destruct (loop_head func args loop_fuel initial tr c ltac:(discriminate) Hloop Hc)
        as [tr' ->].
      discriminate Hev.
  - intros Hpre.
    destruct Hrun as [[-> _]|(Hnan & (b0 & rest' & Hargs & Hinf) & _)];
      [reflexivity|]. exfalso.
    destruct Hpre as [H|[H|(a0 & rest & Ha & Hi)]].
    + rewrite H in Hnan. discriminate Hnan.
    + rewrite H in Hargs. discriminate Hargs.
    + rewrite Ha in Hargs. injection Hargs as -> _.
      rewrite Hi in Hinf. discriminate Hinf.
Qed.

(** X3: a call logs at most one warning, with the arguments of the call,
    and it logs it exactly when it ends after the loop with a value that is
    not NaN: no call that returns at a pre-check, converges, divides by zero
    or raises logs anything. *)
Theorem warning_only_on_exhaustion (args : list float) :
  warnings (fst (wrapper func args))
  = match snd (wrapper func args) with
    | Return AtExhausted v => if isnan v then [] else [args]
    | _ => []
    end.
Proof.
  destruct (wrapper func args) as [tr c] eqn:Hrun. cbn [fst snd].
  apply wrapper_cases in Hrun.
  destruct Hrun as [[-> Hpre]|(_ & _ & Hloop)].
  - destruct Hpre as [[_ ->]|[[_ ->]|(a0 & rest & _ & _ & ->)]]; reflexivity.
  - exact (loop_warnings func args loop_fuel initial tr c Hloop).
Qed.

(** X4: a converged result is finite and stable: the call ended with two
    evaluations, at some precision and at its double, both of which gave
    finite values, the second close to the first ([math.isclose]), and the
    result is the second one. *)
Theorem converged_result_is_stable
        (args : list float) (tr : list event) (v : float) :
  wrapper func args = (tr, Return AtConverged v) ->
  exists pre d p,
    tr = pre ++ [Eval d; Eval (2 * d)]
    /\ evaluate func d args = Computed p
    /\ evaluate func (2 * d) args = Computed v
    /\ isfinite p = true /\ isfinite v = true /\ isclose v p = true.
Proof.
  intros H. apply wrapper_cases in H.
  destruct H as [[_ [[_ H]|[[_ H]|(a0 & rest & _ & _ & H)]]]|(_ & _ & H)];
    try discriminate H.
  apply loop_converged in H.
  destruct H as [(p & Hp & _)|H]; [discriminate Hp | exact H].
Qed.

(** X5: the loop returns the first stable value.  When the call passes the
    pre-checks, the expression has the narrowed values [zs 0], ..., [zs k]
    at the first [k + 1] precisions (16, 32, ...), and [zs k] is the first
    of them that passes the convergence test against the value before it,
    the call evaluates the expression exactly at those [k + 1] precisions,
    logs nothing and returns [zs k]. *)
Theorem returns_first_stable_value
        (args : list float) (a0 : float) (rest : list float)
        (zs : nat -> float) (k : nat) :
  existsb isnan args = false ->
  args = a0 :: rest ->
  isinf a0 = false ->
  (k <= 12)%nat ->
  (forall i, (i <= k)%nat -> evaluate func (schedule i) args = Computed (zs i)) ->
  (forall i, (i < k)%nat -> converged (previous zs i) (zs i) = false) ->
  converged (previous zs k) (zs k) = true ->
  wrapper func args = (map Eval (doublings (S k) 16), Return AtConverged (zs k)).
Proof.
  intros Hnan Hargs Hinf Hk Hev Hno Hyes.
  unfold wrapper. rewrite Hnan. subst args. rewrite Hinf.
  exact (loop_first_stable func (a0 :: rest) zs k Hk Hev Hno Hyes
           k 0%nat loop_fuel initial eq_refl ltac:(unfold loop_fuel; lia)
           eq_refl eq_refl).
Qed.

(** X6: when the call passes the pre-checks and none of the narrowed
    values [zs 0], ..., [zs 12] of the expression at the thirteen precisions
    passes the convergence test against the value before it, the call
    evaluates the expression at all thirteen precisions and returns the
    last value, [zs 12], after the warning (which is omitted when that value
    is NaN). *)
Theorem returns_last_value_when_never_stable
        (args : list float) (a0 : float) (rest : list float)
        (zs : nat -> float) :
  existsb isnan args = false ->
  args = a0 :: rest ->
  isinf a0 = false ->
  (forall i, (i <= 12)%nat -> evaluate func (schedule i) args = Computed (zs i)) ->
  (forall i, (i <= 12)%nat -> converged (previous zs i) (zs i) = false) ->
  wrapper func args
  = (map Eval (doublings 13 16) ++ final_warning args (zs 12%nat),
     Return AtExhausted (zs 12%nat)).
Proof.
  intros Hnan Hargs Hinf Hev Hno.
  unfold wrapper. rewrite Hnan. subst args. rewrite Hinf.
  exact (loop_never_stable func (a0 :: rest) zs Hev Hno
           13 0%nat loop_fuel initial eq_refl ltac:(unfold loop_fuel; lia)
           eq_refl eq_refl eq_refl).
Qed.

(** X7: what a returned value tells about the way the call ended.  A
    finite result is a converged value or the last value of an exhausted
    loop; an infinite result is the infinite statistic given back by the
    pre-check or the last value of an exhausted loop; a NaN result comes
    from a NaN argument, a division by zero or an exhausted loop.  In
    particular a converged result is never NaN or infinite. *)
Theorem result_site_by_value
        (args : list float) (tr : list event) (s : return_site) (v : float) :
  wrapper func args = (tr, Return s v) ->
  match v with
  | S754_zero _ | S754_finite _ _ _ => s = AtConverged \/ s = AtExhausted
  | S754_infinity _ => s = AtInfCheck \/ s = AtExhausted
  | S754_nan => s = AtNaNCheck \/ s = AtZeroDivision \/ s = AtExhausted
  end.
Proof.
  intros H. apply wrapper_cases in H.
  destruct H as [[_ [[_ H]|[[_ H]|(a0 & rest & _ & Hinf & H)]]]|(_ & _ & H)].
  - injection H as -> ->. left. reflexivity.
  - discriminate H.
  - injection H as -> ->. destruct a0; try discriminate Hinf. left. reflexivity.
  - apply loop_return_sites in H.
    destruct H as [[-> ->] | [[-> Hfin] | ->]].
    + right. left. reflexivity.
    + destruct v; try discriminate Hfin; left; reflexivity.
    + destruct v; repeat right; reflexivity.
Qed.

End EvaluatorExtras.

Module MoreRuns.

Import Examples.

(** An exception the wrapper does not catch, at 32 digits. *)
Lemma unexpected_exception_propagates_witness :
  wrapper (P := double_provider) (failing_at 32) two_args
  = ([Eval 16] ++ Eval 32 :: [], Raise OtherError)
  /\ failing_at 32 32 two_args = Throw OtherError.
Proof.
  split; [|reflexivity].
  destruct (wrapper (P := double_provider) (failing_at 32) two_args)
    as [tr c] eqn:Hrun.
  assert (Htr : tr = [Eval 16] ++ Eval 32 :: []).
  { vm_compute in Hrun. injection Hrun as <- _. reflexivity. }
  destruct (unexpected_exception_propagates (P := double_provider) (failing_at 32)
              two_args tr [Eval 16] [] c 32 OtherError Hrun Htr eq_refl
              ltac:(discriminate) ltac:(discriminate)) as (_ & ->).
  rewrite Htr. reflexivity.
Defined.

(** The converged run of a constant expression. *)
Lemma converged_result_is_stable_witness :
  wrapper (P := double_provider) one_always two_args
  = ([Eval 16; Eval 32], Return AtConverged (of_Z 1))
  /\ exists pre d p,
       [Eval 16; Eval 32] = pre ++ [Eval d; Eval (2 * d)]
       /\ evaluate (P := double_provider) one_always d two_args = Computed p
       /\ evaluate (P := double_provider) one_always (2 * d) two_args
          = Computed (of_Z 1)
       /\ isfinite p = true /\ isfinite (of_Z 1) = true
       /\ isclose (of_Z 1) p = true.
Proof.
  assert (H : wrapper (P := double_provider) one_always two_args
              = ([Eval 16; Eval 32], Return AtConverged (of_Z 1))) by reflexivity.
  split; [exact H|].
  exact (converged_result_is_stable (P := double_provider) one_always
           two_args _ _ H).
Defined.

(** A constant expression: its second value is the first stable one. *)
Lemma returns_first_stable_value_witness :
  wrapper (P := double_provider) one_always two_args
  = (map Eval (doublings 2 16), Return AtConverged (of_Z 1)).
Proof.
  apply (returns_first_stable_value (P := double_provider) one_always
           two_args (of_Z 1) [of_Z 2] (fun _ => of_Z 1) 1);
    try reflexivity; try lia.
  intros i Hi. assert (i = 0%nat) as -> by lia. reflexivity.
Defined.

(** Domain errors at every precision: thirteen evaluations, the warning,
    and infinity. *)
Lemma returns_last_value_when_never_stable_witness :
  wrapper (P := double_provider) domain_error_always two_args
  = (map Eval (doublings 13 16) ++ final_warning two_args inf,
     Return AtExhausted inf).
Proof.
  apply (returns_last_value_when_never_stable (P := double_provider)
           domain_error_always two_args (of_Z 1) [of_Z 2] (fun _ => inf));
    try reflexivity.
  intros i _. destruct i; reflexivity.
Defined.

(** The infinite result of an exhausted loop. *)
Lemma result_site_by_value_witness :
  wrapper (P := double_provider) domain_error_always two_args
  = (map Eval (doublings 13 16) ++ [Warning two_args], Return AtExhausted inf)
  /\ (AtExhausted = AtInfCheck \/ AtExhausted = AtExhausted).
Proof.
  assert (H : wrapper (P := double_provider) domain_error_always two_args
              = (map Eval (doublings 13 16) ++ [Warning two_args],
                 Return AtExhausted inf)) by reflexivity.
  split; [exact H|].
  exact (result_site_by_value (P := double_provider) domain_error_always
           two_args _ AtExhausted inf H).
Defined.

End MoreRuns.

(** * Properties of the result sink *)

Module DatasinkFacts.

Import Ascii String Datasink.
Local Open Scope string_scope.

(** ** Strings and dicts *)


Lemma append_empty_r (a : string) : a ++ "" = a.
Proof.
  induction a as [|x a IH]; simpl; [reflexivity|]. rewrite IH. reflexivity.
Qed.

Lemma find_app_first {B : Type} (p : B -> bool) (l1 l2 : list B) :
  find p (List.app l1 l2)
  = match find p l1 with Some x => Some x | None => find p l2 end.
Proof.
  induction l1 as [|x l1 IH]; simpl; [reflexivity|].
  destruct (p x); [reflexivity | exact IH].
Qed.

Lemma find_map {B C : Type} (g : B -> C) (p : C -> bool) (l : list B) :
  find p (List.map g l) = option_map g (find (fun x => p (g x)) l).
Proof.
  induction l as [|x l IH]; simpl; [reflexivity|].
  destruct (p (g x)); [reflexivity | exact IH].
Qed.

Section Dicts.

Context {A : Type}.

Lemma dict_get_set (d : list (string * A)) (k k' : string) (v : A) :
  dict_get (dict_set d k v) k' = if k =? k' then Some v else dict_get d k'.
Proof.
  induction d as [|[k0 v0] d IH]; simpl.
  - reflexivity.
  - destruct (k0 =? k) eqn:Hk0; simpl.
    + apply String.eqb_eq in Hk0. subst k0.
      destruct (k =? k'); reflexivity.
    + destruct (k0 =? k') eqn:Hk0'.
      * apply String.eqb_eq in Hk0'. subst k0.
        rewrite String.eqb_sym, Hk0. reflexivity.
      * exact IH.
Qed.

Lemma dict_set_keys (d : list (string * A)) (k : string) (v : A) :
  List.map fst (dict_set d k v)
  = if existsb (String.eqb k) (List.map fst d) then List.map fst d
    else List.app (List.map fst d) [k].
Proof.
  induction d as [|[k0 v0] d IH]; simpl.
  - reflexivity.
  - rewrite (String.eqb_sym k k0). destruct (k0 =? k); simpl.
    + reflexivity.
    + rewrite IH. destruct (existsb (String.eqb k) (List.map fst d)); reflexivity.
Qed.

Lemma existsb_eqb_In (k : string) (ks : list string) :
  existsb (String.eqb k) ks = true <-> In k ks.
Proof.
  rewrite existsb_exists. split.
  - intros (x & Hin & Heq). apply String.eqb_eq in Heq. subst x. exact Hin.
  - intros Hin. exists k. split; [exact Hin | apply String.eqb_refl].
Qed.

Lemma dict_set_NoDup (d : list (string * A)) (k : string) (v : A) :
  NoDup (List.map fst d) -> NoDup (List.map fst (dict_set d k v)).
Proof.
  intros Hd. rewrite dict_set_keys.
  destruct (existsb (String.eqb k) (List.map fst d)) eqn:Hin; [exact Hd|].
  apply NoDup_app; [exact Hd | repeat constructor; intros [] | ].
  intros x Hx [<-|[]].
  apply existsb_eqb_In in Hx. rewrite Hx in Hin. discriminate Hin.
Qed.

Lemma dict_set_length (d : list (string * A)) (k : string) (v : A) :
  (List.length (dict_set d k v) <= S (List.length d))%nat.
Proof.
  induction d as [|[k0 v0] d IH]; simpl; [lia|].
  destruct (k0 =? k); simpl; lia.
Qed.

Lemma dict_set_new (d : list (string * A)) (k : string) (v : A) :
  ~ In k (List.map fst d) -> dict_set d k v = List.app d [(k, v)].
Proof.
  induction d as [|[k0 v0] d IH]; simpl; intros Hnot; [reflexivity|].
  destruct (k0 =? k) eqn:Hk.
  - apply String.eqb_eq in Hk. contradiction Hnot. left. exact Hk.
  - rewrite IH; [reflexivity|]. intros Hin. apply Hnot. right. exact Hin.
Qed.

(** The dict built from a sequence of pairs, started from [acc]. *)
Lemma fold_dict_set (items acc : list (string * A)) :
  NoDup (List.map fst acc) ->
  let out := fold_left (fun d kv => dict_set d (fst kv) (snd kv)) items acc in
  NoDup (List.map fst out)
  /\ (List.length out <= List.length acc + List.length items)%nat
  /\ forall k,
       dict_get out k
       = match find (fun kv => fst kv =? k) (rev items) with
         | Some kv => Some (snd kv)
         | None => dict_get acc k
         end.
Proof.
  revert acc. induction items as [|[k0 v0] items IH]; intros acc Hacc; cbn zeta.
  - simpl. repeat split; [exact Hacc | lia].
  - cbn [fold_left fst snd].
    destruct (IH (dict_set acc k0 v0) (dict_set_NoDup acc k0 v0 Hacc))
      as (Hnd & Hlen & Hget).
    repeat split.
    + exact Hnd.
    + pose proof (dict_set_length acc k0 v0). cbn [List.length]. lia.
    + intros k. rewrite Hget. cbn [rev]. rewrite find_app_first.
      destruct (find (fun kv => fst kv =? k) (rev items)) as [kv|]; [reflexivity|].
      rewrite dict_get_set. cbn [find fst snd].
      destruct (k0 =? k); reflexivity.
Qed.

(** Pairs with distinct keys make the dict that lists them in order. *)
Lemma fold_dict_set_distinct (items acc : list (string * A)) :
  NoDup (List.map fst (List.app acc items)) ->
  fold_left (fun d kv => dict_set d (fst kv) (snd kv)) items acc
  = List.app acc items.
Proof.
  revert acc. induction items as [|[k0 v0] items IH]; intros acc Hnd.
  - simpl. rewrite app_nil_r. reflexivity.
  - cbn [fold_left fst snd].
    assert (Hnew : ~ In k0 (List.map fst acc)).
    { rewrite map_app in Hnd. cbn [List.map fst] in Hnd.
      apply NoDup_remove_2 in Hnd. intros Hin. apply Hnd.
      apply in_or_app. left. exact Hin. }
    rewrite (dict_set_new acc k0 v0 Hnew), IH.
    + rewrite <- app_assoc. reflexivity.
    + rewrite <- app_assoc. exact Hnd.
Qed.

End Dicts.

(** ** [_format_metadata_value] *)

Section MetadataFacts.

Variable camelize : string -> string.

Lemma find_format_items (f : pyvalue -> pyvalue) (k : string)
      (items : list (string * pyvalue)) :
  match find (fun kv => fst kv =? k) (format_items camelize f items) with
  | Some kv => Some (snd kv)
  | None => None
  end
  = option_map (fun kv => f (snd kv))
      (find (fun kv => _format_metadata_key camelize (fst kv) =? k) items).
Proof.
  induction items as [|[k0 v0] items IH]; simpl; [reflexivity|].
  destruct (_format_metadata_key camelize k0 =? k); [reflexivity | exact IH].
Qed.

Lemma format_items_keys (f : pyvalue -> pyvalue) (items : list (string * pyvalue)) :
  List.map fst (format_items camelize f items)
  = List.map (fun kv => _format_metadata_key camelize (fst kv)) items.
Proof.
  induction items as [|[k0 v0] items IH]; simpl; [reflexivity|].
  rewrite IH. reflexivity.
Qed.

(** X8: formatting a metadata dict gives a dict again (its keys are
    distinct) with at most as many entries.  Under each key it holds the
    formatted value of the last entry of the input whose formatted key is
    that key: when two keys are formatted alike, the later entry wins, and
    a key that no input key is formatted to is absent. *)
Theorem format_metadata_dict (items : list (string * pyvalue)) :
  exists out,
    _format_metadata_value camelize (PyDict items) = PyDict out
    /\ NoDup (List.map fst out)
    /\ (List.length out <= List.length items)%nat
    /\ forall k,
         dict_get out k
         = option_map (fun kv => _format_metadata_value camelize (snd kv))
             (find (fun kv => _format_metadata_key camelize (fst kv) =? k)
                   (rev items)).
Proof.
  exists (dict_of_items
            (format_items camelize (_format_metadata_value camelize) items)).
  split; [reflexivity|].
  destruct (fold_dict_set
              (format_items camelize (_format_metadata_value camelize) items)
              [] (NoDup_nil _)) as (Hnd & Hlen & Hget).
  split; [exact Hnd|]. split.
  - unfold format_items in Hlen at 2. rewrite List.length_map in Hlen. exact Hlen.
  - intros k. unfold dict_of_items. rewrite Hget.
    unfold format_items at 1. rewrite <- map_rev.
    fold (format_items camelize (_format_metadata_value camelize) (rev items)).
    rewrite <- find_format_items.
    destruct (find (fun kv => fst kv =? k)
                (format_items camelize (_format_metadata_value camelize)
                   (rev items))); reflexivity.
Qed.

(** X9: when the keys of a metadata dict are formatted to distinct keys,
    formatting keeps every entry in its place: the result lists, in the
    order of the input, each formatted key with the formatted value. *)
Theorem format_metadata_distinct_keys (items : list (string * pyvalue)) :
  NoDup (List.map (fun kv => _format_metadata_key camelize (fst kv)) items) ->
  _format_metadata_value camelize (PyDict items)
  = PyDict (format_items camelize (_format_metadata_value camelize) items).
Proof.
  intros Hnd.
  change (_format_metadata_value camelize (PyDict items))
    with (PyDict (dict_of_items
                    (format_items camelize (_format_metadata_value camelize) items))).
  f_equal. unfold dict_of_items.
  rewrite fold_dict_set_distinct; [reflexivity|].
  cbn [List.app]. rewrite format_items_keys. exact Hnd.
Qed.

End MetadataFacts.

(** ** [_make_path] *)

Section MakePathFacts.

Variable splitext : string -> string * string.
Variable formatlikebids : string -> string.
Variable entities : list string.





End MakePathFacts.

(** ** Examples *)

(** The example metadata: the special keys, a camelized key, and a nested
    dict, each in its place. *)
Lemma format_metadata_distinct_keys_witness :
  _format_metadata_value camelize_ascii (PyDict example_metadata)
  = PyDict [("FWHM", PyFloat (of_Z 6));
            ("ICAAROMA", PyBool true);
            ("Setting", PyDict [("HighPassWidth", PyFloat (of_Z 125));
                                ("SmoothingKernel", PyStr "gaussian")])].
Proof.
  rewrite (format_metadata_distinct_keys camelize_ascii example_metadata).
  - reflexivity.
  - repeat constructor; simpl; intuition discriminate.
Defined.


End DatasinkFacts.
